(** * Stable-fluids kernel ([src/Simulation/Calculations.py])

    A shallow embedding of the routines of the simulation kernel ([IX],
    [set_bnd], [advect], [lin_solve], [diffuse], [project]) together with the
    small fragment of NumPy they are written in (indexing with negative
    wrap-around, basic slices, element-wise arithmetic, boolean-mask
    assignment, integer-array indexing).

    - Numbers.  The kernel computes on [float64] cells.  All definitions are
      parametric in the cell type [F] and its arithmetic (class [Arith]), so
      that every statement that only concerns which cells are read and
      written holds for any arithmetic.  There are two instances: [float]
      (IEEE 754 binary64 with its rounding, infinities and NaN, the
      arithmetic of the program) and [Qc] (canonical rationals, exact
      arithmetic).  A statement that needs an algebraic identity either
      assumes it of the values involved, so that it covers both instances
      where the identity holds, or says that it is about exact
      arithmetic.
    - Arrays.  A two-dimensional array is a list of rows.  Every access
      returns an [option]: [None] stands for the [IndexError]/[ValueError]
      raised by NumPy.  Broadcasting between arrays of different shapes is not
      modelled (a shape mismatch is an error); all results concern fields of
      one common shape N x N.
    - Globals.  [N] and [iter] come from [Properties], which is not part of
      the sources at hand; they are parameters of the model. *)

From Stdlib Require Import ZArith QArith Qcanon Qround Lia Lqa.
From Stdlib Require PrimFloat SpecFloat FloatOps FloatAxioms.
From stdpp Require Import base option list numbers gmap.

Set Default Proof Using "Type".
Local Open Scope Z_scope.

(** ** Cell arithmetic *)

Class Arith (F : Type) : Type := {
  of_Z : Z → F;            (* conversion of a Python / NumPy integer *)
  half : F;                (* the literal [0.5] *)
  fadd : F → F → F;
  fsub : F → F → F;
  fmul : F → F → F;
  fdiv : F → F → F;
  fopp : F → F;
  fltb : F → F → bool;     (* [x < y] *)
  fis_zero : F → bool;     (* [x == 0] *)
  ffloor : F → Z           (* [np.floor], as an integer *)
}.

Declare Scope fl_scope.
Delimit Scope fl_scope with fl.
Infix "+" := fadd : fl_scope.
Infix "-" := fsub : fl_scope.
Infix "*" := fmul : fl_scope.
Infix "/" := fdiv : fl_scope.
Notation "- x" := (fopp x) : fl_scope.

(** Exact rational arithmetic. *)
#[export] Instance Qc_arith : Arith Qc := {|
  of_Z := Qc_of_Z;
  half := Q2Qc (1 # 2);
  fadd := Qcplus;
  fsub := Qcminus;
  fmul := Qcmult;
  fdiv := Qcdiv;
  fopp := Qcopp;
  fltb := λ x y, bool_decide (Qclt x y);
  fis_zero := λ x, bool_decide (x = Q2Qc 0);
  ffloor := λ x, Qfloor (this x)
|}.

(** IEEE 754 binary64.  An integer is converted by rounding to nearest,
    ties to even.  [np.floor] of an infinity or of NaN is that infinity or
    NaN, which [astype(np.int32)] turns into the minimum integer: these
    values are sent outside the [int32] range, and [astype_int32] below
    does the rest. *)
Definition float_of_Z (z : Z) : PrimFloat.float :=
  FloatOps.SF2Prim
    (SpecFloat.binary_normalize FloatOps.prec FloatOps.emax z 0 false).

(** The integers Python converts to a [float]: those that round to a
    finite value.  On any other integer the conversion raises
    [OverflowError], where [float_of_Z] returns an infinity; a statement
    about a conversion of an integer the caller chooses assumes that it is
    convertible. *)
Definition convertible (z : Z) : Prop := Z.abs z < 2 ^ 1024 - 2 ^ 970.

Definition float_floor (x : PrimFloat.float) : Z :=
  match FloatOps.Prim2SF x with
  | SpecFloat.S754_zero _ => 0
  | SpecFloat.S754_finite s m e =>
      let n := if s then Z.neg m else Z.pos m in
      if bool_decide (0 ≤ e) then n * 2 ^ e else n `div` 2 ^ (- e)
  | SpecFloat.S754_infinity _ | SpecFloat.S754_nan => - 2 ^ 63
  end.

#[export] Instance float_arith : Arith PrimFloat.float := {|
  of_Z := float_of_Z;
  half := PrimFloat.div PrimFloat.one PrimFloat.two;
  fadd := PrimFloat.add;
  fsub := PrimFloat.sub;
  fmul := PrimFloat.mul;
  fdiv := PrimFloat.div;
  fopp := PrimFloat.opp;
  fltb := PrimFloat.ltb;
  fis_zero := PrimFloat.is_zero;
  ffloor := float_floor
|}.

(** A Python number passed as a coefficient: an [int] or a [float].  In an
    operation with a float an [int] is converted first; the test [c == 0]
    of an [int] is decided on the integer. *)
Inductive number (F : Type) : Type :=
  | Int (z : Z)
  | Float (v : F).
Arguments Int {F} z.
Arguments Float {F} v.

Definition value {F} `{!Arith F} (c : number F) : F :=
  match c with Int z => of_Z z | Float v => v end.

Definition is_zero {F} `{!Arith F} (c : number F) : bool :=
  match c with Int z => bool_decide (z = 0) | Float v => fis_zero v end.

(** [1.0 / c]: a division by zero raises [ZeroDivisionError]. *)
Definition reciprocal {F} `{!Arith F} (c : number F) : option F :=
  if is_zero c then None else Some (of_Z 1 / value c)%fl.

(** ** The NumPy fragment *)

Abbreviation array2 A := (list (list A)) (only parsing).

(** [range(a, b)] *)
Definition range (a b : Z) : list Z := seqZ a (b - a).

(** A [for] loop over [l], threading the state [s]; a failing iteration
    aborts the loop. *)
Fixpoint for_each {S I : Type} (l : list I) (body : I → S → option S) (s : S)
  : option S :=
  match l with
  | [] => Some s
  | i :: l => s' ← body i s; for_each l body s'
  end.

(** An index into an axis of length [n]: negative indices count from the
    end, anything outside [-n, n) is an error. *)
Definition wrap_index (n : nat) (i : Z) : option nat :=
  if bool_decide (0 ≤ i < Z.of_nat n) then Some (Z.to_nat i)
  else if bool_decide (- Z.of_nat n ≤ i < 0) then Some (Z.to_nat (i + Z.of_nat n))
  else None.

Section Arrays.
Context {A : Type}.

(** [x[i, j]] *)
Definition getitem (x : array2 A) (i j : Z) : option A :=
  r ← wrap_index (length x) i;
  row ← x !! r;
  c ← wrap_index (length row) j;
  row !! c.

(** [x[i, j] = v] *)
Definition setitem (x : array2 A) (i j : Z) (v : A) : option (array2 A) :=
  r ← wrap_index (length x) i;
  row ← x !! r;
  c ← wrap_index (length row) j;
  Some (<[r := <[c := v]> row]> x).

(** The shape of an array, row by row. *)
Definition shape (x : array2 A) : list nat := length <$> x.

(** [x] is an [n] x [n] array. *)
Definition square (n : Z) (x : array2 A) : Prop :=
  Z.of_nat (length x) = n ∧ Forall (λ row, Z.of_nat (length row) = n) x.

(** One bound of a slice over an axis of length [n], clamped the way
    Python does for a positive step. *)
Definition slice_bound (n : nat) (o : option Z) (dflt : Z) : nat :=
  let i := default dflt o in
  Z.to_nat (Z.min (Z.of_nat n)
                  (if bool_decide (i < 0) then Z.max 0 (i + Z.of_nat n) else i)).

(** [l[start:stop]] *)
Definition slice (l : list A) (start stop : option Z) : list A :=
  let s := slice_bound (length l) start 0 in
  let e := slice_bound (length l) stop (Z.of_nat (length l)) in
  take (e - s)%nat (drop s l).

(** [l[start:stop] = vs] *)
Definition assign_slice (l : list A) (start stop : option Z) (vs : list A)
  : option (list A) :=
  let s := slice_bound (length l) start 0 in
  let e := slice_bound (length l) stop (Z.of_nat (length l)) in
  if bool_decide (length vs = (e - s)%nat)
  then Some (take s l ++ vs ++ drop (s + (e - s))%nat l)
  else None.
End Arrays.

(** [x[r0:r1, c0:c1]] *)
Definition slice2 {A} (x : array2 A) (r0 r1 c0 c1 : option Z) : array2 A :=
  (λ row, slice row c0 c1) <$> slice x r0 r1.

(** [x[r0:r1, c0:c1] = v] *)
Definition assign_slice2 {A} (x : array2 A) (r0 r1 c0 c1 : option Z)
    (v : array2 A) : option (array2 A) :=
  let rows := slice x r0 r1 in
  if bool_decide (length v = length rows)
  then rows' ← mapM (λ rv, assign_slice rv.1 c0 c1 rv.2) (zip rows v);
       assign_slice x r0 r1 rows'
  else None.

(** Element-wise binary operation on two arrays of the same shape. *)
Definition map2 {A B C} (f : A → B → C) (x : array2 A) (y : array2 B)
  : option (array2 C) :=
  if bool_decide (shape x = shape y)
  then Some (zip_with (zip_with f) x y)
  else None.

(** Element-wise unary operation (also: scalar-array operations). *)
Definition map1 {A B} (f : A → B) (x : array2 A) : array2 B :=
  (fmap (M:=list) f) <$> x.

(** [x[mask] = v] for a boolean mask computed from [x] itself. *)
Definition mask_assign {A} (x : array2 A) (test : A → bool) (v : A)
  : array2 A :=
  zip_with (zip_with (λ (m : bool) xv, if m then v else xv))
           (map1 test x) x.

(** [d0[ii, jj]] for two integer index arrays of one shape. *)
Definition take2 {A} (d0 : array2 A) (ii jj : array2 Z) : option (array2 A) :=
  ij ← map2 pair ii jj;
  mapM (mapM (λ ij : Z * Z, getitem d0 ij.1 ij.2)) ij.

(** [np.meshgrid(a, b)] with the default ['xy'] indexing. *)
Definition meshgrid {A} (a b : list A) : array2 A * array2 A :=
  (replicate (length b) a, (λ v, replicate (length a) v) <$> b).

(** [astype(np.int32)] of an integral value, and [int32] addition.  Values
    outside the [int32] range become the minimum integer on conversion. *)
Definition astype_int32 (z : Z) : Z :=
  if bool_decide (- 2 ^ 31 ≤ z < 2 ^ 31) then z else - 2 ^ 31.
Definition wrap_int32 (z : Z) : Z := (z + 2 ^ 31) mod 2 ^ 32 - 2 ^ 31.

(** [np.clip(z, lo, hi)] *)
Definition clip (lo hi z : Z) : Z := Z.min hi (Z.max lo z).

(** ** The kernel *)

(** [IX]: the position of cell [(x, y)] in a flattened field with rows of
    length [NN]; [int] of a Python integer is that integer.  The default of
    [NN] is the module constant [N]. *)
Definition IX (x y NN : Z) : Z := x + y * NN.

Section Kernel.
Context {F : Type} `{!Arith F}.

(** The module-level constants of [Properties]. *)
Variable N : Z.
Variable iter : Z.

Local Open Scope fl_scope.

(** [set_bnd]: the four statements, in program order; [b] is not read. *)
Definition set_bnd (b : Z) (x : array2 F) : option (array2 F) :=
  u ← getitem x 1 0; v ← getitem x 0 1;
  x ← setitem x 0 0 ((u + v) / of_Z 2);
  u ← getitem x 1 (-1); v ← getitem x 0 (-2);
  x ← setitem x 0 (-1) ((u + v) / of_Z 2);
  u ← getitem x (-2) 0; v ← getitem x (-1) 1;
  x ← setitem x (-1) 0 ((u + v) / of_Z 2);
  u ← getitem x (-2) (-1); v ← getitem x (-1) (-2);
  x ← setitem x (-1) (-1) ((u + v) / of_Z 2);
  Some x.

(** The two mask assignments that bound a traced coordinate.  The second
    test compares against the module constant [N]; the value stored is
    computed from the argument [NN]. *)
Definition clamp (NN : Z) (x : array2 F) : array2 F :=
  let x := mask_assign x (λ v, fltb v half) half in
  mask_assign x (λ v, fltb (of_Z N + half) v) (of_Z NN + half).

(** The array expression of [advect] (everything up to the call of
    [set_bnd]): it builds a new array from [d0], [Vx] and [Vy]. *)
Definition interpolation (d0 Vx Vy : array2 F) (dt : F) (NN : Z)
  : option (array2 F) :=
  let dtx := dt * of_Z (NN - 2) in
  let dty := dt * of_Z (NN - 2) in
  let tmp1 := map1 (fmul dtx) Vx in
  let tmp2 := map1 (fmul dty) Vy in
  let i := range 0 NN in
  let j := range 0 NN in
  let '(j, i) := meshgrid i j in
  x ← map2 fsub (map1 of_Z i) tmp1;
  y ← map2 fsub (map1 of_Z j) tmp2;
  let x := clamp NN x in
  let y := clamp NN y in
  let i0 := map1 (λ v, astype_int32 (ffloor v)) x in
  let i1 := map1 (λ z, wrap_int32 (z + 1)%Z) i0 in
  let j0 := map1 (λ v, astype_int32 (ffloor v)) y in
  let j1 := map1 (λ z, wrap_int32 (z + 1)%Z) j0 in
  let i0 := map1 (clip 0 (NN - 1)) i0 in
  let i1 := map1 (clip 0 (NN - 1)) i1 in
  let j0 := map1 (clip 0 (NN - 1)) j0 in
  let j1 := map1 (clip 0 (NN - 1)) j1 in
  s1 ← map2 fsub x (map1 of_Z i0);
  let s0 := map1 (fsub (of_Z 1)) s1 in
  t1 ← map2 fsub y (map1 of_Z j0);
  let t0 := map1 (fsub (of_Z 1)) t1 in
  d00 ← take2 d0 i0 j0;
  e00 ← map2 fmul t0 d00;
  d01 ← take2 d0 i0 j1;
  e01 ← map2 fmul t1 d01;
  e0 ← map2 fadd e00 e01;
  l ← map2 fmul s0 e0;
  d10 ← take2 d0 i1 j0;
  e10 ← map2 fmul t0 d10;
  d11 ← take2 d0 i1 j1;
  e11 ← map2 fmul t1 d11;
  e1 ← map2 fadd e10 e11;
  r ← map2 fmul s1 e1;
  map2 fadd l r.

(** [advect], on array values: the array [d] passed in is never read; the
    name is rebound to the array built by the interpolation expression. *)
Definition advect (b : Z) (d d0 Vx Vy : array2 F) (dt : F) (NN : Z)
  : option (array2 F) :=
  d ← interpolation d0 Vx Vy dt NN;
  set_bnd b d.

(** The right-hand side of the slice assignment of [lin_solve]. *)
Definition relax_rhs (x x0 : array2 F) (a cRecip : F) : option (array2 F) :=
  s ← map2 fadd (slice2 x None (Some (-2)) (Some 1) (Some (-1)))
                (slice2 x (Some 2) None (Some 1) (Some (-1)));
  s ← map2 fadd s (slice2 x (Some 1) (Some (-1)) None (Some (-2)));
  s ← map2 fadd s (slice2 x (Some 1) (Some (-1)) (Some 2) None);
  r ← map2 fadd (slice2 x0 (Some 1) (Some (-1)) (Some 1) (Some (-1)))
                (map1 (fmul a) s);
  Some (map1 (λ v, v * cRecip) r).

(** One pass of the loop of [lin_solve]: the right-hand side is evaluated
    from slices of [x] and [x0], stored into the interior of [x], and the
    corners are recomputed. *)
Definition lin_solve_sweep (b : Z) (x0 : array2 F) (a cRecip : F)
    (x : array2 F) : option (array2 F) :=
  r ← relax_rhs x x0 a cRecip;
  x ← assign_slice2 x (Some 1) (Some (-1)) (Some 1) (Some (-1)) r;
  set_bnd b x.

(** [lin_solve]: the reciprocal of [c] is taken once, before the loop, and
    that is where a zero [c] raises. *)
Definition lin_solve (b : Z) (x x0 : array2 F) (a c : number F)
  : option (array2 F) :=
  cRecip ← reciprocal c;
  for_each (range 0 iter) (λ k, lin_solve_sweep b x0 (value a) cRecip) x.

Definition diffuse (b : Z) (x x0 : array2 F) (diff dt : F) (NN : Z)
  : option (array2 F) :=
  let a := dt * diff * of_Z (NN - 2) * of_Z (NN - 2) in
  lin_solve b x x0 (Float a) (Float (of_Z 1 + of_Z 6 * a)).

(** Body of the first loop nest of [project]; the loop state is the pair of
    arrays that are written, [(p, div)]. *)
Definition project_div_cell (velocX velocY : array2 F) (NN j i : Z)
    (s : array2 F * array2 F) : option (array2 F * array2 F) :=
  let '(p, div) := s in
  xe ← getitem velocX (i + 1) j; xw ← getitem velocX (i - 1) j;
  yn ← getitem velocY i (j + 1); ys ← getitem velocY i (j - 1);
  div ← setitem div i j (- half * (xe - xw + yn - ys) / of_Z NN);
  p ← setitem p i j (of_Z 0);
  Some (p, div).

(** Body of the second loop nest; the loop state is [(velocX, velocY)]. *)
Definition project_vel_cell (p : array2 F) (NN j i : Z)
    (s : array2 F * array2 F) : option (array2 F * array2 F) :=
  let '(velocX, velocY) := s in
  pe ← getitem p (i + 1) j; pw ← getitem p (i - 1) j;
  pn ← getitem p i (j + 1); ps ← getitem p i (j - 1);
  vx ← getitem velocX i j;
  velocX ← setitem velocX i j (vx - half * (pe - pw + pn - ps) * of_Z NN);
  pe ← getitem p (i + 1) j; pw ← getitem p (i - 1) j;
  pn ← getitem p i (j + 1); ps ← getitem p i (j - 1);
  vy ← getitem velocY i j;
  velocY ← setitem velocY i j (vy - half * (pe - pw + pn - ps) * of_Z NN);
  Some (velocX, velocY).

Definition project (velocX velocY p div : array2 F) (NN : Z)
  : option (array2 F * array2 F * array2 F * array2 F) :=
  '(p, div) ← for_each (range 1 (NN - 1)) (λ j,
                for_each (range 1 (NN - 1)) (λ i,
                  project_div_cell velocX velocY NN j i)) (p, div);
  div ← set_bnd 0 div;
  p ← set_bnd 0 p;
  p ← lin_solve 0 p div (Int 1) (Int 6);
  '(velocX, velocY) ← for_each (range 1 (NN - 1)) (λ j,
                        for_each (range 1 (NN - 1)) (λ i,
                          project_vel_cell p NN j i)) (velocX, velocY);
  velocX ← set_bnd 1 velocX;
  velocY ← set_bnd 2 velocY;
  Some (velocX, velocY, p, div).

End Kernel.

(** ** Arrays as index functions

    Every [n] x [n] array is the table of a function on indices.  The
    operations of the NumPy fragment are characterised on tables; the
    statements about the kernel are then read cell by cell. *)

(** The [n] x [n] table of [f]. *)
Definition tab {A} (n : Z) (f : Z → Z → A) : array2 A :=
  (λ r, f r <$> seqZ 0 n) <$> seqZ 0 n.

(** The position an index denotes on an axis of length [n]. *)
Definition nidx (n i : Z) : Z := if bool_decide (i < 0) then i + n else i.

(** Point update of an index function. *)
Definition fupd {A} (f : Z → Z → A) (i j : Z) (v : A) : Z → Z → A :=
  λ i' j', if bool_decide (i' = i ∧ j' = j) then v else f i' j'.

(** The content of cell [(i, j)]; [d] outside the array. *)
Definition cell_or {A} (d : A) (x : array2 A) (i j : Z) : A :=
  default d (getitem x i j).

(** Cells of a field: the corners, the interior, the border. *)
Definition corner (n i j : Z) : Prop :=
  (i = 0 ∨ i = n - 1) ∧ (j = 0 ∨ j = n - 1).
Definition interior (n i j : Z) : Prop :=
  1 ≤ i ≤ n - 2 ∧ 1 ≤ j ≤ n - 2.
Definition inside (n i j : Z) : Prop :=
  0 ≤ i < n ∧ 0 ≤ j < n.

#[export] Instance corner_dec n i j : Decision (corner n i j).
Proof. unfold corner. apply _. Defined.
#[export] Instance interior_dec n i j : Decision (interior n i j).
Proof. unfold interior. apply _. Defined.
#[export] Instance inside_dec n i j : Decision (inside n i j).
Proof. unfold inside. apply _. Defined.

(** The cells visited by a loop nest [for j in range(lo, hi): for i in
    range(lo, hi)], in the order of the visits, as pairs [(j, i)]. *)
Definition cells (lo hi : Z) : list (Z * Z) :=
  j ← range lo hi; i ← range lo hi; [(j, i)].

(** The effect of a list of cell visits on a state of index functions. *)
Definition apply_cells {T} (step : Z → Z → T → T) (cs : list (Z * Z)) (t : T)
  : T :=
  foldl (λ t c, step c.1 c.2 t) t cs.

Section Views.
Context {F : Type} `{!Arith F}.
Local Open Scope fl_scope.

(** The content of a cell of a field. *)
Definition cell (x : array2 F) (i j : Z) : F := cell_or (of_Z 0) x i j.

(** The average the boundary routine stores. *)
Definition avg (u v : F) : F := (u + v) / of_Z 2.

(** [set_bnd] on index functions: the four writes in program order. *)
Definition bnd_fun (n : Z) (f : Z → Z → F) : Z → Z → F :=
  let f := fupd f 0 0 (avg (f 1 0) (f 0 1)) in
  let f := fupd f 0 (n - 1)%Z (avg (f 1 (n - 1)%Z) (f 0 (n - 2)%Z)) in
  let f := fupd f (n - 1)%Z 0 (avg (f (n - 2)%Z 0) (f (n - 1)%Z 1)) in
  fupd f (n - 1)%Z (n - 1)%Z
       (avg (f (n - 2)%Z (n - 1)%Z) (f (n - 1)%Z (n - 2)%Z)).

(** The interior update of one pass of [lin_solve] on index functions. *)
Definition relax_fun (n : Z) (f0 : Z → Z → F) (a cRecip : F)
    (f : Z → Z → F) : Z → Z → F :=
  λ i j, if bool_decide (interior n i j)
         then (f0 i j + a * (f (i - 1)%Z j + f (i + 1)%Z j
                             + f i (j - 1)%Z + f i (j + 1)%Z)) * cRecip
         else f i j.

(** The two mask assignments of [advect] on one coordinate. *)
Definition clamp_val (N NN : Z) (v : F) : F :=
  let v := if fltb v half then half else v in
  if fltb (of_Z N + half) v then of_Z NN + half else v.

(** The traced coordinates of cell [(i, j)] and the sampling indices. *)
Definition trace (N NN : Z) (dt : F) (v : Z → Z → F) (k i j : Z) : F :=
  clamp_val N NN (of_Z k - dt * of_Z (NN - 2) * v i j).
Definition index0 (NN : Z) (x : F) : Z :=
  clip 0 (NN - 1) (astype_int32 (ffloor x)).
Definition index1 (NN : Z) (x : F) : Z :=
  clip 0 (NN - 1) (wrap_int32 (astype_int32 (ffloor x) + 1)).

(** The interpolation expression of [advect] on index functions. *)
Definition adv_fun (N NN : Z) (dt : F) (d0 vx vy : Z → Z → F)
  : Z → Z → F :=
  λ i j,
    let x := trace N NN dt vx i i j in
    let y := trace N NN dt vy j i j in
    let i0 := index0 NN x in let i1 := index1 NN x in
    let j0 := index0 NN y in let j1 := index1 NN y in
    let s1 := x - of_Z i0 in let s0 := of_Z 1 - s1 in
    let t1 := y - of_Z j0 in let t0 := of_Z 1 - t1 in
    s0 * (t0 * d0 i0 j0 + t1 * d0 i0 j1)
    + s1 * (t0 * d0 i1 j0 + t1 * d0 i1 j1).

(** The two loop nests of [project] on index functions. *)
Definition div_fun (n : Z) (vx vy fd : Z → Z → F) : Z → Z → F :=
  λ i j, if bool_decide (interior n i j)
         then - half * (vx (i + 1)%Z j - vx (i - 1)%Z j
                        + vy i (j + 1)%Z - vy i (j - 1)%Z) / of_Z n
         else fd i j.
Definition zero_fun (n : Z) (fp : Z → Z → F) : Z → Z → F :=
  λ i j, if bool_decide (interior n i j) then of_Z 0 else fp i j.
Definition grad_fun (n : Z) (fp fv : Z → Z → F) : Z → Z → F :=
  λ i j, if bool_decide (interior n i j)
         then fv i j - half * (fp (i + 1)%Z j - fp (i - 1)%Z j
                               + fp i (j + 1)%Z - fp i (j - 1)%Z) * of_Z n
         else fv i j.

(** The pressure [project] computes, on index functions. *)
Definition pressure_fun (iter n : Z) (fdiv fp : Z → Z → F) : Z → Z → F :=
  Nat.iter (Z.to_nat iter)
           (λ f, bnd_fun n (relax_fun n fdiv (of_Z 1) (of_Z 1 / of_Z 6) f))
           (bnd_fun n (zero_fun n fp)).

(** *** Identities of the arithmetic

    Some statements below need an identity that exact arithmetic has for
    all values and [float64] has for some only: it is lost where a sum or
    a product overflows, since [0 * inf] is NaN.  Such a statement assumes
    the identity of the values involved, through one of the following
    predicates; [P] is the set of cell values the statement is about. *)

(** With [a = 0] and [c = 1] the stencil returns its first operand. *)
Definition degenerate_stencil (P : F → Prop) : Prop :=
  ∀ t u v w z, P t → P u → P v → P w → P z →
    (t + of_Z 0 * (u + v + w + z)) * (of_Z 1 / of_Z 1) = t.

(** With zero velocity the coordinates [k = 1 .. n-1] are not moved, pass
    both tests of the clamp (the second compares with the module constant
    [N]), and are their own floor. *)
Definition still_grid (N n : Z) (dt : F) : Prop :=
  ∀ k, (1 ≤ k ≤ n - 1)%Z →
    of_Z k - dt * of_Z (n - 2) * of_Z 0 = of_Z k
    ∧ fltb (of_Z k) half = false
    ∧ fltb (of_Z N + half) (of_Z k) = false
    ∧ ffloor (of_Z k) = k
    ∧ of_Z k - of_Z k = of_Z 0.

(** Interpolation with the weights 1 and 0 returns the first sample. *)
Definition trivial_mix (P : F → Prop) : Prop :=
  ∀ A B C D, P A → P B → P C → P D →
    (of_Z 1 - of_Z 0) * ((of_Z 1 - of_Z 0) * A + of_Z 0 * B)
    + of_Z 0 * ((of_Z 1 - of_Z 0) * C + of_Z 0 * D) = A.

(** The three comparisons the clamp to [0.5, n + 0.5] relies on: neither
    bound is below itself, and the upper bound is not below the lower. *)
Definition clamp_sound (n : Z) : Prop :=
  fltb half half = false
  ∧ fltb (of_Z n + half) (of_Z n + half) = false
  ∧ fltb (of_Z n + half) half = false.

End Views.

(** ** The solver and the diffuser as the specification words them

    The definitions of this section follow the text of the specification
    (section 4.3, LinearSolver, and section 4.4, Diffuser), not the
    program; they are compared with [lin_solve] and [diffuse] below.  The
    last operation of the stencil is a parameter: the specification divides
    by [c], the program multiplies by the reciprocal of [c]. *)

Section Specification.
Context {F : Type} `{!Arith F}.
Variable iter : Z.
Local Open Scope fl_scope.

(** The stencil value of cell [(i, j)], read from the field [x]. *)
Definition stencil_with (scale : F → F) (x x0 : array2 F) (a : F) (i j : Z)
  : option F :=
  u ← getitem x0 i j;
  n ← getitem x (i - 1) j; s ← getitem x (i + 1) j;
  w ← getitem x i (j - 1); e ← getitem x i (j + 1);
  Some (scale (u + a * (n + s + w + e))).

Definition stencil (x x0 : array2 F) (a c : F) (i j : Z) : option F :=
  stencil_with (λ v, v / c) x x0 a i j.

(** One sweep: every interior cell receives its stencil value computed
    from the field as it was before the sweep; then the boundary enforcer
    is applied. *)
Definition jacobi_sweep_with (scale : F → F) (b : Z) (x0 : array2 F) (a : F)
    (x : array2 F) : option (array2 F) :=
  let n := Z.of_nat (length x) in
  let snapshot := x in
  x ← for_each (range 1 (n - 1)) (λ j,
        for_each (range 1 (n - 1)) (λ i x,
          v ← stencil_with scale snapshot x0 a i j; setitem x i j v)) x;
  set_bnd b x.

Definition jacobi_sweep (b : Z) (x0 : array2 F) (a c : F) (x : array2 F)
  : option (array2 F) :=
  jacobi_sweep_with (λ v, v / c) b x0 a x.

(** [k] sweeps in a row. *)
Fixpoint sweeps (k : nat) (sweep : array2 F → option (array2 F))
    (x : array2 F) : option (array2 F) :=
  match k with
  | O => Some x
  | S k => x ← sweep x; sweeps k sweep x
  end.

(** The solver of the specification: [iter] sweeps that divide by [c]. *)
Definition solve_linear (b : Z) (x x0 : array2 F) (a c : F)
  : option (array2 F) :=
  sweeps (Z.to_nat iter) (jacobi_sweep b x0 a c) x.

(** The same solver with the reciprocal of [c] taken once, before the
    first sweep (a zero [c] is an error), and every sweep multiplying by
    it. *)
Definition solve_linear_recip (b : Z) (x x0 : array2 F) (a c : number F)
  : option (array2 F) :=
  cRecip ← reciprocal c;
  sweeps (Z.to_nat iter)
         (jacobi_sweep_with (λ v, v * cRecip) b x0 (value a)) x.

(** The diffuser of the specification: [a = dt*diff*(N-2)^2], then the
    linear solver with the coefficients [(a, 1 + 6a)]. *)
Definition diffuse_spec (b : Z) (x x0 : array2 F) (diff dt : F) (NN : Z)
  : option (array2 F) :=
  let a := dt * diff * of_Z ((NN - 2) ^ 2) in
  lin_solve iter b x x0 (Float a) (Float (of_Z 1 + of_Z 6 * a)).

End Specification.

(** ** Sample fields *)

(** A 3 x 3 field with nine distinct cells, and the 3 x 3 zero field. *)
Definition sample3 : array2 Qc :=
  [[Qc_of_Z 1; Qc_of_Z 2; Qc_of_Z 3];
   [Qc_of_Z 4; Qc_of_Z 5; Qc_of_Z 6];
   [Qc_of_Z 7; Qc_of_Z 8; Qc_of_Z 9]].

Definition zeros (n : Z) : array2 Qc := tab n (λ _ _, Qc_of_Z 0).

(** A 3 x 3 pressure field that is zero except on the edge cell (0, 1). *)
Definition pressure_edge3 : array2 Qc :=
  tab 3 (λ i j, if bool_decide (i = 0 ∧ j = 1) then Qc_of_Z 1 else Qc_of_Z 0).

(** A 4 x 4 velocity component that is zero except at the cell (2, 2). *)
Definition velocity4 : array2 Qc :=
  tab 4 (λ i j, if bool_decide (i = 2 ∧ j = 2) then Qc_of_Z 1 else Qc_of_Z 0).

(** A store of four 3 x 3 fields: reference 0 holds zeros, reference 1 the
    sample field, references 2 and 3 zeros. *)
Definition sample_store : list (array2 Qc) :=
  [zeros 3; sample3; zeros 3; zeros 3].

(** Fields of [float64] cells: the same sample field, a field with the
    three values 1, 2, 3, and constant fields. *)
Definition fsample3 : array2 PrimFloat.float :=
  [[float_of_Z 1; float_of_Z 2; float_of_Z 3];
   [float_of_Z 4; float_of_Z 5; float_of_Z 6];
   [float_of_Z 7; float_of_Z 8; float_of_Z 9]].

Definition fcheck3 : array2 PrimFloat.float :=
  [[float_of_Z 1; float_of_Z 2; float_of_Z 1];
   [float_of_Z 2; float_of_Z 3; float_of_Z 2];
   [float_of_Z 1; float_of_Z 2; float_of_Z 1]].

Definition fconst (n : Z) (v : PrimFloat.float) : array2 PrimFloat.float :=
  tab n (λ _ _, v).

(** The values of [fcheck3]. *)
Definition small (v : PrimFloat.float) : Prop :=
  v = float_of_Z 1 ∨ v = float_of_Z 2 ∨ v = float_of_Z 3.

(** Classes of [float64] values: the finite ones (zeros included), and the
    finite ones other than [-0.0]. *)
Definition float_finite (v : PrimFloat.float) : Prop :=
  match FloatOps.Prim2SF v with
  | SpecFloat.S754_zero _ | SpecFloat.S754_finite _ _ _ => True
  | _ => False
  end.

Definition float_plain (v : PrimFloat.float) : Prop :=
  match FloatOps.Prim2SF v with
  | SpecFloat.S754_zero false | SpecFloat.S754_finite _ _ _ => True
  | _ => False
  end.

(** The [float64] value 1: mantissa [2^52], exponent [-52]. *)
Definition SFone64 : SpecFloat.spec_float :=
  SpecFloat.S754_finite false 4503599627370496 (-52).

(** What the zero-velocity trace needs of the grid coordinate [k] in
    [float64]: the conversion of [k] is finite and not zero, passes both
    tests of the clamp (the second against the module constant [N]), and
    is its own floor. *)
Definition grid_check (N k : Z) : bool :=
  let v := float_of_Z k in
  match FloatOps.Prim2SF v with
  | SpecFloat.S754_finite _ _ _ => true
  | _ => false
  end
  && negb (fltb v half)
  && negb (fltb (of_Z N + half)%fl v)
  && bool_decide (ffloor v = k).

(** Unfold the exact arithmetic down to the operations of [Qc]. *)
Ltac qc_arith :=
  cbv [fadd fsub fmul fdiv fopp fltb fis_zero ffloor of_Z half avg Qc_arith]
    in *;
  rewrite ?Z2Qc_inj_0, ?Z2Qc_inj_1 in *.

(** Move a goal about the order of [Qc] to [Q], where [lra] works. *)
Ltac qc2q :=
  repeat match goal with x : Qc |- _ => destruct x as [x ?] end;
  unfold Qcdiv, Qcminus in *;
  unfold Qcinv, Qcle, Qclt, Qcplus, Qcmult, Qcopp, Qc_of_Z, Q2Qc in *;
  cbn [this] in *; rewrite ?Qred_correct in *; unfold inject_Z in *.

(** ** The kernel on references

    In the program every field is a reference to a NumPy array, and the
    routines communicate through the arrays they mutate.  Here a store maps
    references to array values; a routine is a computation that may read
    and write the store, allocate, and fail.  References are never freed.
    The temporaries a NumPy expression creates are not given references:
    only arrays the caller can reach are. *)

Module Store.

Abbreviation ref := nat.

Section Store.
Context {F : Type} `{!Arith F}.

(** The module-level constants of [Properties]. *)
Variable N : Z.
Variable iter : Z.

Local Open Scope fl_scope.

Abbreviation store := (list (array2 F)).

Definition M (A : Type) : Type := store → option (A * store).

#[global] Instance M_ret : MRet M := λ A a h, Some (a, h).
#[global] Instance M_bind : MBind M := λ A B k m h,
  match m h with Some (a, h') => k a h' | None => None end.

(** The array a reference points to. *)
Definition deref (r : ref) : M (array2 F) :=
  λ h, a ← h !! r; Some (a, h).

(** Overwrite the array a reference points to (an in-place update). *)
Definition assign (r : ref) (a : array2 F) : M unit :=
  λ h, if decide (r < length h)%nat then Some ((), <[r := a]> h) else None.

(** A new array object. *)
Definition alloc (a : array2 F) : M ref :=
  λ h, Some (length h, h ++ [a]).

(** A computation on array values. *)
Definition lift {A} (o : option A) : M A :=
  λ h, a ← o; Some (a, h).

(** [x[i, j]] and [x[i, j] = v] through a reference. *)
Definition load (x : ref) (i j : Z) : M F :=
  a ← deref x; lift (getitem a i j).
Definition store_cell (x : ref) (i j : Z) (v : F) : M unit :=
  a ← deref x; a ← lift (setitem a i j v); assign x a.

(** A [for] loop that threads a value through its iterations. *)
Fixpoint for_fold {A I : Type} (l : list I) (body : I → A → M A) (a : A)
  : M A :=
  match l with
  | [] => mret a
  | i :: l => a ← body i a; for_fold l body a
  end.

(** [set_bnd]: four writes into the array [x] points to; [x] is returned. *)
Definition set_bnd (b : Z) (x : ref) : M ref :=
  u ← load x 1 0; v ← load x 0 1;
  _ ← store_cell x 0 0 ((u + v) / of_Z 2);
  u ← load x 1 (-1); v ← load x 0 (-2);
  _ ← store_cell x 0 (-1) ((u + v) / of_Z 2);
  u ← load x (-2) 0; v ← load x (-1) 1;
  _ ← store_cell x (-1) 0 ((u + v) / of_Z 2);
  u ← load x (-2) (-1); v ← load x (-1) (-2);
  _ ← store_cell x (-1) (-1) ((u + v) / of_Z 2);
  mret x.

(** [advect]: the assignment [d = (...)] binds the local name [d] to the
    array the expression creates; the array the caller passed as [d] is not
    touched.  [set_bnd] then works on, and [advect] returns, the new
    array. *)
Definition advect (b : Z) (d d0 Vx Vy : ref) (dt : F) (NN : Z) : M ref :=
  a0 ← deref d0; ax ← deref Vx; ay ← deref Vy;
  r ← lift (interpolation N a0 ax ay dt NN);
  d ← alloc r;
  d ← set_bnd b d;
  mret d.

(** [lin_solve]: each pass evaluates the right-hand side from the current
    content of [x] and [x0], stores it into the interior of [x] in place,
    and rebinds [x] to what [set_bnd] returns. *)
Definition lin_solve (b : Z) (x x0 : ref) (a c : number F) : M ref :=
  cRecip ← lift (reciprocal c);
  for_fold (range 0 iter) (λ k x,
    ax ← deref x; ax0 ← deref x0;
    r ← lift (relax_rhs ax ax0 (value a) cRecip);
    ax ← lift (assign_slice2 ax (Some 1) (Some (-1)) (Some 1) (Some (-1)) r);
    _ ← assign x ax;
    set_bnd b x) x.

Definition diffuse (b : Z) (x x0 : ref) (diff dt : F) (NN : Z) : M ref :=
  let a := dt * diff * of_Z (NN - 2) * of_Z (NN - 2) in
  x ← lin_solve b x x0 (Float a) (Float (of_Z 1 + of_Z 6 * a));
  mret x.

Definition project_div_cell (velocX velocY p div : ref) (NN j i : Z)
  : M unit :=
  xe ← load velocX (i + 1) j; xw ← load velocX (i - 1) j;
  yn ← load velocY i (j + 1); ys ← load velocY i (j - 1);
  _ ← store_cell div i j (- half * (xe - xw + yn - ys) / of_Z NN);
  store_cell p i j (of_Z 0).

Definition project_vel_cell (velocX velocY p : ref) (NN j i : Z) : M unit :=
  pe ← load p (i + 1) j; pw ← load p (i - 1) j;
  pn ← load p i (j + 1); ps ← load p i (j - 1);
  vx ← load velocX i j;
  _ ← store_cell velocX i j (vx - half * (pe - pw + pn - ps) * of_Z NN);
  pe ← load p (i + 1) j; pw ← load p (i - 1) j;
  pn ← load p i (j + 1); ps ← load p i (j - 1);
  vy ← load velocY i j;
  store_cell velocY i j (vy - half * (pe - pw + pn - ps) * of_Z NN).

Definition project (velocX velocY p div : ref) (NN : Z)
  : M (ref * ref * ref * ref) :=
  _ ← for_fold (range 1 (NN - 1)) (λ j _,
        for_fold (range 1 (NN - 1)) (λ i _,
          project_div_cell velocX velocY p div NN j i) ()) ();
  div ← set_bnd 0 div;
  p ← set_bnd 0 p;
  p ← lin_solve 0 p div (Int 1) (Int 6);
  _ ← for_fold (range 1 (NN - 1)) (λ j _,
        for_fold (range 1 (NN - 1)) (λ i _,
          project_vel_cell velocX velocY p NN j i) ()) ();
  velocX ← set_bnd 1 velocX;
  velocY ← set_bnd 2 velocY;
  mret (velocX, velocY, p, div).

(** What a call may change: [frame R h h'] says that the store [h'] holds
    the references of [h], with the arrays of [h] at every reference
    outside [R]. *)
Definition frame (R : list ref) (h h' : store) : Prop :=
  length h' = length h ∧ ∀ r, r ∉ R → h' !! r = h !! r.

(** A computation that, whenever it returns, has written to no array
    outside [R]; a computation that, whenever it returns, returns [v0]. *)
Definition writes {A} (R : list ref) (m : M A) : Prop :=
  ∀ h v h', m h = Some (v, h') → frame R h h'.
Definition returns {A} (v0 : A) (m : M A) : Prop :=
  ∀ h v h', m h = Some (v, h') → v = v0.

End Store.
End Store.

(** ** Facts about the NumPy fragment *)

Section RowFacts.
Context {A : Type}.
Implicit Types (h : Z → A).

Lemma lookup_row h n c :
  (h <$> seqZ 0 n) !! c
  = if decide (Z.of_nat c < n) then Some (h (Z.of_nat c)) else None.
Proof.
  rewrite list_lookup_fmap. case_decide.
  - rewrite lookup_seqZ_lt by done. simpl. by rewrite Z.add_0_l.
  - rewrite lookup_seqZ_ge by lia. done.
Qed.

Lemma length_row h n : length (h <$> seqZ 0 n) = Z.to_nat n.
Proof. by rewrite length_fmap, length_seqZ. Qed.

Lemma row_ext h h' n :
  (∀ c, 0 ≤ c < n → h c = h' c) → h <$> seqZ 0 n = h' <$> seqZ 0 n.
Proof.
  intros E. apply list_eq. intros c. rewrite !lookup_row.
  case_decide; [|done]. f_equal. apply E. lia.
Qed.

Lemma insert_row h n c v :
  0 ≤ c < n →
  <[Z.to_nat c := v]> (h <$> seqZ 0 n)
  = (λ c', if bool_decide (c' = c) then v else h c') <$> seqZ 0 n.
Proof.
  intros Hc. apply list_eq. intros k.
  rewrite list_lookup_insert, length_row, !lookup_row.
  repeat (case_decide || case_bool_decide); try done; try lia.
Qed.

End RowFacts.

Section ArrayFacts.
Context {A : Type}.
Implicit Types (f g : Z → Z → A) (x : array2 A).

Lemma length_tab n f : length (tab n f) = Z.to_nat n.
Proof. apply (length_row (λ r, f r <$> seqZ 0 n)). Qed.

Lemma lookup_tab n f r :
  tab n f !! r
  = if decide (Z.of_nat r < n) then Some (f (Z.of_nat r) <$> seqZ 0 n) else None.
Proof. apply (lookup_row (λ r, f r <$> seqZ 0 n)). Qed.

Lemma tab_ext n f g :
  (∀ i j, inside n i j → f i j = g i j) → tab n f = tab n g.
Proof.
  intros E. apply list_eq. intros r. rewrite !lookup_tab.
  case_decide; [|done]. f_equal. apply row_ext. intros c Hc.
  apply E. unfold inside. lia.
Qed.

Lemma wrap_index_in n i :
  - n ≤ i < n → wrap_index (Z.to_nat n) i = Some (Z.to_nat (nidx n i)).
Proof.
  intros Hi. unfold wrap_index, nidx.
  repeat case_bool_decide; try lia; do 2 f_equal; lia.
Qed.

Lemma wrap_index_out n i :
  0 ≤ n → ¬ (- n ≤ i < n) → wrap_index (Z.to_nat n) i = None.
Proof.
  intros Hn Hi. unfold wrap_index. repeat case_bool_decide; try lia; done.
Qed.

Lemma wrap_index_nat (n k : nat) :
  (k < n)%nat → wrap_index n (Z.of_nat k) = Some k.
Proof.
  intros Hk. unfold wrap_index. rewrite bool_decide_eq_true_2 by lia.
  by rewrite Nat2Z.id.
Qed.

Lemma nidx_range n i : - n ≤ i < n → 0 ≤ nidx n i < n.
Proof. unfold nidx. case_bool_decide; lia. Qed.

Lemma nidx_nonneg n i : 0 ≤ i → nidx n i = i.
Proof. unfold nidx. case_bool_decide; lia. Qed.

Lemma getitem_tab n f i j :
  - n ≤ i < n → - n ≤ j < n →
  getitem (tab n f) i j = Some (f (nidx n i) (nidx n j)).
Proof.
  intros Hi Hj. pose proof (nidx_range n i Hi). pose proof (nidx_range n j Hj).
  unfold getitem. rewrite length_tab, wrap_index_in by done. simpl.
  rewrite lookup_tab, decide_True by lia. simpl.
  rewrite length_row, wrap_index_in by done. simpl.
  rewrite lookup_row, decide_True by lia.
  by rewrite !Z2Nat.id by lia.
Qed.

Lemma getitem_tab_out n f i j :
  0 ≤ n → ¬ (- n ≤ i < n ∧ - n ≤ j < n) → getitem (tab n f) i j = None.
Proof.
  intros Hn Hij. unfold getitem. rewrite length_tab.
  destruct (decide (- n ≤ i < n)) as [Hi|Hi].
  - pose proof (nidx_range n i Hi).
    rewrite wrap_index_in by done. simpl.
    rewrite lookup_tab, decide_True by lia. simpl.
    rewrite length_row, wrap_index_out by lia. done.
  - by rewrite wrap_index_out.
Qed.

Lemma setitem_tab n f i j v :
  - n ≤ i < n → - n ≤ j < n →
  setitem (tab n f) i j v = Some (tab n (fupd f (nidx n i) (nidx n j) v)).
Proof.
  intros Hi Hj. pose proof (nidx_range n i Hi). pose proof (nidx_range n j Hj).
  unfold setitem. rewrite length_tab, wrap_index_in by done. simpl.
  rewrite lookup_tab, decide_True by lia. simpl.
  rewrite length_row, wrap_index_in by done. simpl. f_equal.
  rewrite insert_row by lia. rewrite Z2Nat.id by lia.
  apply list_eq. intros k.
  rewrite list_lookup_insert, length_tab, !lookup_tab.
  case_decide as Hk.
  - destruct Hk as [<- ?]. rewrite decide_True by lia. f_equal.
    rewrite Z2Nat.id by lia.
    apply row_ext. intros c Hc. unfold fupd.
    repeat case_bool_decide; try done; destruct_and?; try lia.
  - case_decide; [|done]. f_equal. apply row_ext. intros c Hc.
    unfold fupd. case_bool_decide; [|done]. destruct_and?. lia.
Qed.

Lemma square_tab n f : 0 ≤ n → square n (tab n f).
Proof.
  intros Hn. split.
  - rewrite length_tab. lia.
  - apply Forall_forall. intros row Hrow.
    apply list_elem_of_lookup in Hrow as [r Hr].
    rewrite lookup_tab in Hr. case_decide; [|done].
    injection Hr as <-. rewrite length_row. lia.
Qed.

Lemma square_nonneg n x : square n x → 0 ≤ n.
Proof. intros [<- _]. lia. Qed.

Lemma square_is_tab d n x : square n x → x = tab n (cell_or d x).
Proof.
  intros [Hlen Hrows]. apply list_eq. intros r. rewrite lookup_tab.
  case_decide as Hr.
  - destruct (lookup_lt_is_Some_2 x r) as [row Hrow]; [lia|].
    rewrite Hrow. f_equal.
    rewrite Forall_forall in Hrows.
    assert (Hlr : Z.of_nat (length row) = n).
    { apply Hrows. eapply list_elem_of_lookup_2, Hrow. }
    apply list_eq. intros c. rewrite lookup_row.
    case_decide as Hc.
    + destruct (lookup_lt_is_Some_2 row c) as [v Hv]; [lia|].
      rewrite Hv. f_equal. unfold cell_or, getitem.
      rewrite (wrap_index_nat (length x) r) by lia. simpl.
      rewrite Hrow. simpl.
      rewrite (wrap_index_nat (length row) c) by lia. simpl.
      by rewrite Hv.
    + apply lookup_ge_None_2. lia.
  - apply lookup_ge_None_2. lia.
Qed.

Lemma square_ext n x y :
  square n x → square n y →
  (∀ i j, inside n i j → getitem x i j = getitem y i j) → x = y.
Proof.
  intros Hx Hy E.
  assert (Hn := square_nonneg _ _ Hx).
  destruct (decide (n = 0)) as [->|Hn0].
  { destruct Hx as [Hx _], Hy as [Hy _].
    destruct x, y; simpl in *; try lia. done. }
  assert (∃ d : A, True) as [d _].
  { destruct Hx as [Hx Hr]. destruct x as [|[|d row] x]; simpl in *; [lia| |eauto].
    apply Forall_cons_1 in Hr as [Hr _]. simpl in Hr. lia. }
  rewrite (square_is_tab d n x Hx), (square_is_tab d n y Hy).
  apply tab_ext. intros i j Hij. unfold cell_or. by rewrite E.
Qed.

End ArrayFacts.

(** *** The operations on tables *)

Section RowOps.
Context {A B C : Type}.

Lemma zip_with_row (g : A → B → C) (h1 : Z → A) (h2 : Z → B) n :
  zip_with g (h1 <$> seqZ 0 n) (h2 <$> seqZ 0 n)
  = (λ c, g (h1 c) (h2 c)) <$> seqZ 0 n.
Proof.
  apply list_eq. intros c. rewrite lookup_zip_with, !lookup_row.
  by case_decide.
Qed.

Lemma fmap_row (g : A → B) (h : Z → A) n :
  g <$> (h <$> seqZ 0 n) = (λ c, g (h c)) <$> seqZ 0 n.
Proof. by rewrite <- list_fmap_compose. Qed.

Lemma mapM_row (g : A → option B) (h : Z → A) (h' : Z → B) n :
  (∀ c, 0 ≤ c < n → g (h c) = Some (h' c)) →
  mapM g (h <$> seqZ 0 n) = Some (h' <$> seqZ 0 n).
Proof.
  intros E. apply mapM_Some_2, Forall2_same_length_lookup_2.
  - by rewrite !length_row.
  - intros c u v. rewrite !lookup_row. case_decide; [|done].
    intros [= <-] [= <-]. apply E. lia.
Qed.

Lemma slice_row (h : Z → A) n a b s m :
  0 ≤ s → 0 ≤ m → s + m ≤ n →
  slice_bound (Z.to_nat n) a 0 = Z.to_nat s →
  slice_bound (Z.to_nat n) b (Z.of_nat (Z.to_nat n)) = Z.to_nat (s + m) →
  slice (h <$> seqZ 0 n) a b = (λ c, h (c + s)) <$> seqZ 0 m.
Proof.
  intros Hs Hm Hn Ha Hb. unfold slice. rewrite length_row, Ha, Hb.
  apply list_eq. intros c. rewrite lookup_take, lookup_drop, !lookup_row.
  repeat case_decide; try done; try lia.
  do 2 f_equal. lia.
Qed.

Lemma assign_slice_row (h h' : Z → A) n a b s m :
  0 ≤ s → 0 ≤ m → s + m ≤ n →
  slice_bound (Z.to_nat n) a 0 = Z.to_nat s →
  slice_bound (Z.to_nat n) b (Z.of_nat (Z.to_nat n)) = Z.to_nat (s + m) →
  assign_slice (h <$> seqZ 0 n) a b (h' <$> seqZ 0 m)
  = Some ((λ c, if bool_decide (s ≤ c < s + m) then h' (c - s) else h c)
            <$> seqZ 0 n).
Proof.
  intros Hs Hm Hn Ha Hb. unfold assign_slice. rewrite !length_row, Ha, Hb.
  rewrite bool_decide_eq_true_2 by lia. f_equal.
  apply list_eq. intros c.
  rewrite lookup_app, lookup_take, lookup_app, lookup_drop, !lookup_row.
  rewrite length_take, !length_row.
  repeat (case_decide || case_bool_decide); try done; try lia;
    do 2 f_equal; lia.
Qed.

End RowOps.

(** The bounds of the three slices the kernel uses. *)
Lemma slice_bound_lo n k :
  0 ≤ k ≤ n → slice_bound (Z.to_nat n) (Some k) 0 = Z.to_nat k.
Proof. intros. unfold slice_bound. simpl. case_bool_decide; lia. Qed.

Lemma slice_bound_lo_None n :
  slice_bound (Z.to_nat n) None 0 = Z.to_nat 0.
Proof. unfold slice_bound. simpl. lia. Qed.

Lemma slice_bound_hi n k s :
  - n ≤ k < 0 → s = n + k →
  slice_bound (Z.to_nat n) (Some k) (Z.of_nat (Z.to_nat n)) = Z.to_nat s.
Proof. intros ? ->. unfold slice_bound. simpl. case_bool_decide; lia. Qed.

Lemma slice_bound_hi_None n s :
  0 ≤ n → s = n →
  slice_bound (Z.to_nat n) None (Z.of_nat (Z.to_nat n)) = Z.to_nat s.
Proof. intros ? ->. unfold slice_bound. simpl. case_bool_decide; lia. Qed.

Lemma shape_tab {A} n (f : Z → Z → A) :
  shape (tab n f) = (λ _, Z.to_nat n) <$> seqZ 0 n.
Proof.
  unfold shape, tab. rewrite <- list_fmap_compose. apply list_fmap_ext.
  intros _ r _. simpl. apply length_row.
Qed.

Section TabOps.
Context {A B C : Type}.

Lemma map1_tab (g : A → B) n (f : Z → Z → A) :
  map1 g (tab n f) = tab n (λ i j, g (f i j)).
Proof.
  unfold map1, tab. rewrite <- list_fmap_compose. apply list_fmap_ext.
  intros _ r _. simpl. apply fmap_row.
Qed.

Lemma zip_with_tab (g : A → B → C) n (f1 : Z → Z → A) (f2 : Z → Z → B) :
  zip_with (zip_with g) (tab n f1) (tab n f2)
  = tab n (λ i j, g (f1 i j) (f2 i j)).
Proof.
  unfold tab. rewrite zip_with_row. apply list_fmap_ext.
  intros _ r _. apply zip_with_row.
Qed.

Lemma map2_tab (g : A → B → C) n (f1 : Z → Z → A) (f2 : Z → Z → B) :
  map2 g (tab n f1) (tab n f2) = Some (tab n (λ i j, g (f1 i j) (f2 i j))).
Proof.
  unfold map2. rewrite !shape_tab, bool_decide_eq_true_2 by done.
  by rewrite zip_with_tab.
Qed.

Lemma mapM_tab (g : A → option B) n (f : Z → Z → A) (f' : Z → Z → B) :
  (∀ i j, inside n i j → g (f i j) = Some (f' i j)) →
  mapM (mapM g) (tab n f) = Some (tab n f').
Proof.
  intros E. unfold tab. apply mapM_row. intros r Hr.
  apply mapM_row. intros c Hc. apply E. unfold inside. lia.
Qed.

Lemma slice2_tab n (f : Z → Z → A) r0 r1 c0 c1 sr sc m :
  0 ≤ sr → 0 ≤ sc → 0 ≤ m → sr + m ≤ n → sc + m ≤ n →
  slice_bound (Z.to_nat n) r0 0 = Z.to_nat sr →
  slice_bound (Z.to_nat n) r1 (Z.of_nat (Z.to_nat n)) = Z.to_nat (sr + m) →
  slice_bound (Z.to_nat n) c0 0 = Z.to_nat sc →
  slice_bound (Z.to_nat n) c1 (Z.of_nat (Z.to_nat n)) = Z.to_nat (sc + m) →
  slice2 (tab n f) r0 r1 c0 c1 = tab m (λ i j, f (i + sr) (j + sc)).
Proof.
  intros ????? Hr0 Hr1 Hc0 Hc1. unfold slice2, tab.
  rewrite (slice_row _ n r0 r1 sr m) by done.
  rewrite <- list_fmap_compose. apply list_fmap_ext. intros _ r _. simpl.
  by apply slice_row.
Qed.

End TabOps.

Lemma mask_assign_tab {A} (t : A → bool) (v : A) n (f : Z → Z → A) :
  mask_assign (tab n f) t v = tab n (λ i j, if t (f i j) then v else f i j).
Proof. unfold mask_assign. by rewrite map1_tab, zip_with_tab. Qed.

Lemma take2_tab {A} m (d : Z → Z → A) n (fi fj : Z → Z → Z) :
  (∀ i j, inside n i j → (- m ≤ fi i j < m) ∧ (- m ≤ fj i j < m)) →
  take2 (tab m d) (tab n fi) (tab n fj)
  = Some (tab n (λ i j, d (nidx m (fi i j)) (nidx m (fj i j)))).
Proof.
  intros Hin. unfold take2. rewrite map2_tab. simpl.
  apply mapM_tab. intros i j Hij. simpl.
  destruct (Hin i j Hij). by apply getitem_tab.
Qed.

Lemma meshgrid_range n :
  meshgrid (range 0 n) (range 0 n) = (tab n (λ r c, c), tab n (λ r c, r)).
Proof.
  unfold meshgrid, range, tab. rewrite Z.sub_0_r, length_seqZ. f_equal.
  - apply list_eq. intros r. rewrite lookup_row.
    case_decide.
    + rewrite lookup_replicate_2 by lia. by rewrite list_fmap_id.
    + apply lookup_replicate_None. lia.
  - apply list_fmap_ext. intros _ r _.
    apply list_eq. intros c. rewrite lookup_row.
    case_decide.
    + by rewrite lookup_replicate_2 by lia.
    + apply lookup_replicate_None. lia.
Qed.

Lemma assign_slice2_tab {A} n (f g : Z → Z → A) :
  2 ≤ n →
  assign_slice2 (tab n f) (Some 1) (Some (-1)) (Some 1) (Some (-1))
                (tab (n - 2) g)
  = Some (tab n (λ i j, if bool_decide (interior n i j)
                        then g (i - 1) (j - 1) else f i j)).
Proof.
  intros Hn. unfold assign_slice2.
  assert (Hlo := slice_bound_lo n 1 ltac:(lia)).
  assert (Hhi := slice_bound_hi n (-1) (1 + (n - 2)) ltac:(lia) ltac:(lia)).
  unfold tab.
  rewrite (slice_row _ n (Some 1) (Some (-1)) 1 (n - 2));
    [|lia|lia|lia|exact Hlo|exact Hhi].
  rewrite !length_row, bool_decide_eq_true_2 by done.
  rewrite zip_with_row.
  erewrite mapM_row; last first.
  { intros r Hr. simpl.
    apply (assign_slice_row _ _ n _ _ 1 (n - 2));
      [lia|lia|lia|exact Hlo|exact Hhi]. }
  simpl.
  rewrite (assign_slice_row _ _ n (Some 1) (Some (-1)) 1 (n - 2));
    [|lia|lia|lia|exact Hlo|exact Hhi].
  f_equal.
  apply list_eq. intros r. rewrite !lookup_row.
  case_decide; [|done]. f_equal.
  case_bool_decide.
  - apply row_ext. intros c Hc. unfold interior.
    repeat case_bool_decide; try lia; try done.
    by replace (Z.of_nat r - 1 + 1) with (Z.of_nat r) by lia.
  - apply row_ext. intros c Hc. unfold interior.
    repeat case_bool_decide; try lia; done.
Qed.

(** ** The NumPy fragment on small inputs *)

Example wrap_index_last : wrap_index 3 (-1) = Some 2%nat.
Proof. reflexivity. Qed.

Example wrap_index_past_end : wrap_index 3 3 = None.
Proof. reflexivity. Qed.

Example slice_inner : slice [1; 2; 3; 4; 5] (Some 1) (Some (-1)) = [2; 3; 4].
Proof. reflexivity. Qed.

Example slice_drop_last_two : slice [1; 2; 3; 4; 5] None (Some (-2)) = [1; 2; 3].
Proof. reflexivity. Qed.

Example slice_from_two : slice [1; 2; 3; 4; 5] (Some 2) None = [3; 4; 5].
Proof. reflexivity. Qed.

Example slice_inner_of_two : slice [1; 2] (Some 1) (Some (-1)) = [].
Proof. reflexivity. Qed.

Example assign_slice_inner :
  assign_slice [1; 2; 3; 4; 5] (Some 1) (Some (-1)) [7; 8; 9]
  = Some [1; 7; 8; 9; 5].
Proof. reflexivity. Qed.

Example assign_slice_wrong_length :
  assign_slice [1; 2; 3; 4; 5] (Some 1) (Some (-1)) [7; 8] = None.
Proof. reflexivity. Qed.

Example meshgrid_3_2 :
  meshgrid [1; 2; 3] [4; 5]
  = ([[1; 2; 3]; [1; 2; 3]], [[4; 4; 4]; [5; 5; 5]]).
Proof. reflexivity. Qed.

Example take2_pairs :
  take2 [[10; 11]; [20; 21]] [[0; 1]; [-1; 0]] [[1; 1]; [0; -1]]
  = Some [[11; 21]; [20; 11]].
Proof. reflexivity. Qed.

Example take2_past_end :
  take2 [[10; 11]; [20; 21]] [[2]] [[0]] = None.
Proof. reflexivity. Qed.

Example int32_overflow : wrap_int32 (2 ^ 31 - 1 + 1) = - 2 ^ 31.
Proof. reflexivity. Qed.

(** [set_bnd] on a 2 x 2 field: every cell is a corner, and the later
    statements read what the earlier ones wrote. *)
Example set_bnd_2x2 :
  fmap (M:=list) (fmap (M:=list) this)
    <$> set_bnd 0 [[Qc_of_Z 1; Qc_of_Z 2]; [Qc_of_Z 3; Qc_of_Z 4]]
  = Some [[5 # 2; 13 # 4]; [13 # 4; 13 # 4]]%Q.
Proof. by vm_compute. Qed.

Example set_bnd_3x3 :
  fmap (M:=list) (fmap (M:=list) this) <$> set_bnd 0 sample3
  = Some [[3; 2; 4]; [4; 5; 6]; [6; 8; 7]]%Q.
Proof. by vm_compute. Qed.

(** A 1 x 1 field has no cell [(1, 0)]. *)
Example set_bnd_1x1 : set_bnd 0 [[Qc_of_Z 1]] = None.
Proof. reflexivity. Qed.

(** One sweep of [lin_solve] with [a = 1], [c = 6] on the sample field: the
    centre receives (5 + (2 + 8 + 4 + 6)) / 6. *)
Example lin_solve_3x3 :
  fmap (M:=list) (fmap (M:=list) this)
    <$> lin_solve 1 0 sample3 sample3 (Int 1) (Int 6)
  = Some [[3; 2; 4]; [4; 25 # 6; 6]; [6; 8; 7]]%Q.
Proof. by vm_compute. Qed.

(** [advect] with zero velocity on the sample field. *)
Example advect_3x3 :
  fmap (M:=list) (fmap (M:=list) this)
    <$> advect 3 0 (zeros 3) sample3 (zeros 3) (zeros 3) (Qc_of_Z 1) 3
  = Some [[4; 7 # 2; 19 # 4]; [9 # 2; 5; 6]; [25 # 4; 8; 7]]%Q.
Proof. by vm_compute. Qed.

(** ** Loops *)

Section Loops.
Context {S I : Type}.
Implicit Types (body : I → S → option S).

Lemma for_each_app l1 l2 body s :
  for_each (l1 ++ l2) body s = for_each l1 body s ≫= for_each l2 body.
Proof.
  revert s. induction l1 as [|i l1 IH]; intros s; simpl; [done|].
  destruct (body i s) as [s'|]; simpl; [apply IH|done].
Qed.

End Loops.

Lemma for_each_nest {S} (l1 l2 : list Z) (body : Z → Z → S → option S) s :
  for_each l1 (λ j, for_each l2 (body j)) s
  = for_each (j ← l1; i ← l2; [(j, i)]) (λ c, body c.1 c.2) s.
Proof.
  revert s. induction l1 as [|j l1 IH]; intros s; [done|].
  rewrite bind_cons, for_each_app. simpl.
  assert (E : ∀ s, for_each l2 (body j) s
                   = for_each (l2 ≫= λ i, [(j, i)]) (λ c, body c.1 c.2) s).
  { clear. induction l2 as [|i l2 IH2]; intros s; [done|]. simpl.
    destruct (body j i s); simpl; [apply IH2|done]. }
  rewrite E. destruct (for_each _ _ s); simpl; [apply IH|done].
Qed.

Lemma elem_of_cells lo hi j i :
  (j, i) ∈ cells lo hi ↔ lo ≤ j < hi ∧ lo ≤ i < hi.
Proof.
  unfold cells, range. rewrite list_elem_of_bind. split.
  - intros (j' & Hi & Hj). apply list_elem_of_bind in Hi as (i' & Hc & Hi).
    apply list_elem_of_singleton in Hc as [= -> ->].
    apply elem_of_seqZ in Hi, Hj. lia.
  - intros [Hj Hi]. exists j. split; [|apply elem_of_seqZ; lia].
    apply list_elem_of_bind. exists i. split; [by apply list_elem_of_singleton|].
    apply elem_of_seqZ. lia.
Qed.

Lemma NoDup_cells lo hi : NoDup (cells lo hi).
Proof.
  unfold cells. apply NoDup_bind; [| |apply NoDup_seqZ].
  - intros j j' c _ _ Hc Hc'.
    apply list_elem_of_bind in Hc as (i & Hc & _).
    apply list_elem_of_bind in Hc' as (i' & Hc' & _).
    apply list_elem_of_singleton in Hc, Hc'. congruence.
  - intros j _. apply NoDup_bind; [| |apply NoDup_seqZ].
    + intros i i' c _ _ Hc Hc'.
      apply list_elem_of_singleton in Hc, Hc'. congruence.
    + intros i _. apply NoDup_singleton.
Qed.

(** A loop whose body acts on tables as [step] acts on index functions. *)
Lemma for_each_cells {S T} (repr : T → S) (step : Z → Z → T → T)
    (body : Z → Z → S → option S) cs t :
  (∀ j i t, (j, i) ∈ cs → body j i (repr t) = Some (repr (step j i t))) →
  for_each cs (λ c, body c.1 c.2) (repr t)
  = Some (repr (apply_cells step cs t)).
Proof.
  revert t. induction cs as [|[j i] cs IH]; intros t E; [done|]. simpl.
  rewrite E by left. simpl. apply IH. intros. apply E. by right.
Qed.

Lemma for_each_range_cells {S T} (repr : T → S) (step : Z → Z → T → T)
    (body : Z → Z → S → option S) lo hi t :
  (∀ j i t, lo ≤ j < hi → lo ≤ i < hi →
     body j i (repr t) = Some (repr (step j i t))) →
  for_each (range lo hi) (λ j, for_each (range lo hi) (body j)) (repr t)
  = Some (repr (apply_cells step (cells lo hi) t)).
Proof.
  intros E. rewrite for_each_nest. apply for_each_cells.
  intros j i t' Hc. apply elem_of_cells in Hc as [??]. by apply E.
Qed.

(** Cell by cell: every visited cell is updated once. *)
Lemma apply_cells_fupd {A} (u : Z → Z → A → A) cs (f : Z → Z → A) i j :
  NoDup cs →
  apply_cells (λ j i f, fupd f i j (u i j (f i j))) cs f i j
  = if bool_decide ((j, i) ∈ cs) then u i j (f i j) else f i j.
Proof.
  unfold apply_cells. revert f.
  induction cs as [|[j' i'] cs IH]; intros f Hnd; [done|].
  apply NoDup_cons in Hnd as [Hni Hnd]. simpl. rewrite IH by done.
  unfold fupd.
  destruct (decide (i = i' ∧ j = j')) as [[-> ->]|Hne].
  - rewrite (bool_decide_eq_false_2 ((j', i') ∈ cs)) by done.
    rewrite (bool_decide_eq_true_2 (i' = i' ∧ j' = j')) by done.
    by rewrite bool_decide_eq_true_2 by left.
  - rewrite (bool_decide_eq_false_2 (i = i' ∧ j = j')) by done.
    rewrite (bool_decide_ext ((j, i) ∈ (j', i') :: cs) ((j, i) ∈ cs));
      [done|].
    rewrite elem_of_cons. split; [|auto].
    intros [[= -> ->]|]; [by destruct Hne|done].
Qed.

Lemma apply_cells_pair {A B} (s1 : Z → Z → A → A) (s2 : Z → Z → B → B)
    cs (t1 : A) (t2 : B) :
  apply_cells (λ j i t, (s1 j i t.1, s2 j i t.2)) cs (t1, t2)
  = (apply_cells s1 cs t1, apply_cells s2 cs t2).
Proof.
  unfold apply_cells. revert t1 t2.
  induction cs as [|c cs IH]; intros t1 t2; [done|]. simpl. apply IH.
Qed.

(** ** The kernel on tables *)

Lemma nidx_neg n i : i < 0 → nidx n i = i + n.
Proof. unfold nidx. case_bool_decide; lia. Qed.

Section KernelTab.
Context {F : Type} `{!Arith F}.
Implicit Types (f g : Z → Z → F).
Local Open Scope fl_scope.

Lemma set_bnd_tab b n f :
  (2 ≤ n)%Z → set_bnd b (tab n f) = Some (tab n (bnd_fun n f)).
Proof.
  intros Hn. unfold set_bnd.
  repeat (rewrite getitem_tab by lia; simpl;
          rewrite getitem_tab by lia; simpl;
          rewrite setitem_tab by lia; simpl).
  rewrite !(nidx_nonneg n 0), !(nidx_nonneg n 1) by lia.
  rewrite !(nidx_neg n (-1)), !(nidx_neg n (-2)) by lia.
  replace (-1 + n)%Z with (n - 1)%Z by lia.
  replace (-2 + n)%Z with (n - 2)%Z by lia.
  done.
Qed.

Lemma fupd_eq f i j v : fupd f i j v i j = v.
Proof. unfold fupd. by rewrite bool_decide_eq_true_2. Qed.

Lemma fupd_ne f i j v i' j' :
  i' ≠ i ∨ j' ≠ j → fupd f i j v i' j' = f i' j'.
Proof.
  intros Hne. unfold fupd. rewrite bool_decide_eq_false_2; [done|].
  intros [-> ->]. by destruct Hne.
Qed.

Lemma bnd_fun_frame n f i j : ¬ corner n i j → bnd_fun n f i j = f i j.
Proof.
  intros Hc. unfold bnd_fun, corner in *.
  rewrite !fupd_ne by lia. done.
Qed.

Lemma bnd_fun_ext n f g :
  (∀ i j, f i j = g i j) → ∀ i j, bnd_fun n f i j = bnd_fun n g i j.
Proof. intros E i j. unfold bnd_fun, fupd. by rewrite !E. Qed.

Lemma bnd_fun_corners n f :
  (2 ≤ n)%Z →
  let g := bnd_fun n f in
  g 0%Z 0%Z = avg (f 1%Z 0%Z) (f 0%Z 1%Z)
  ∧ g 0%Z (n - 1)%Z = avg (f 1%Z (n - 1)%Z) (g 0%Z (n - 2)%Z)
  ∧ g (n - 1)%Z 0%Z = avg (g (n - 2)%Z 0%Z) (f (n - 1)%Z 1%Z)
  ∧ g (n - 1)%Z (n - 1)%Z
    = avg (g (n - 2)%Z (n - 1)%Z) (g (n - 1)%Z (n - 2)%Z).
Proof.
  intros Hn. destruct (decide (n = 2)) as [->|Hn2]; [done|].
  simpl. unfold bnd_fun. cbv zeta.
  repeat split; rewrite ?fupd_eq, ?fupd_ne by lia;
    rewrite ?fupd_eq, ?fupd_ne by lia; done.
Qed.

Lemma relax_fun_frame n f0 a cR f i j :
  ¬ interior n i j → relax_fun n f0 a cR f i j = f i j.
Proof. intros. unfold relax_fun. by rewrite bool_decide_eq_false_2. Qed.

Lemma lin_solve_sweep_tab b n f0 a cR f :
  (2 ≤ n)%Z →
  lin_solve_sweep b (tab n f0) a cR (tab n f)
  = Some (tab n (bnd_fun n (relax_fun n f0 a cR f))).
Proof.
  intros Hn. unfold lin_solve_sweep, relax_rhs.
  assert (H1 := slice_bound_lo n 1 ltac:(lia)).
  assert (H2 := slice_bound_lo n 2 ltac:(lia)).
  assert (H0 := slice_bound_lo_None n).
  assert (Hm1 := λ s, slice_bound_hi n (-1) s ltac:(lia)).
  assert (Hm2 := λ s, slice_bound_hi n (-2) s ltac:(lia)).
  assert (Hm0 := λ s, slice_bound_hi_None n s ltac:(lia)).
  rewrite (slice2_tab n f None (Some (-2)) (Some 1) (Some (-1)) 0 1 (n - 2));
    [|lia|lia|lia|lia|lia|done|apply Hm2; lia|done|apply Hm1; lia].
  rewrite (slice2_tab n f (Some 2) None (Some 1) (Some (-1)) 2 1 (n - 2));
    [|lia|lia|lia|lia|lia|done|apply Hm0; lia|done|apply Hm1; lia].
  rewrite (slice2_tab n f (Some 1) (Some (-1)) None (Some (-2)) 1 0 (n - 2));
    [|lia|lia|lia|lia|lia|done|apply Hm1; lia|done|apply Hm2; lia].
  rewrite (slice2_tab n f (Some 1) (Some (-1)) (Some 2) None 1 2 (n - 2));
    [|lia|lia|lia|lia|lia|done|apply Hm1; lia|done|apply Hm0; lia].
  rewrite (slice2_tab n f0 (Some 1) (Some (-1)) (Some 1) (Some (-1)) 1 1 (n - 2));
    [|lia|lia|lia|lia|lia|done|apply Hm1; lia|done|apply Hm1; lia].
  repeat (first [rewrite map2_tab | rewrite map1_tab]; simpl).
  rewrite assign_slice2_tab by done. simpl.
  rewrite set_bnd_tab by done. f_equal.
  apply tab_ext. intros i j _. apply bnd_fun_ext. clear i j. intros i j.
  unfold relax_fun. case_bool_decide; [|done].
  repeat (f_equal; try lia).
Qed.

Lemma for_each_iter {S I T} (repr : T → S) (stepf : T → T)
    (h : S → option S) (l : list I) t :
  (∀ t, h (repr t) = Some (repr (stepf t))) →
  for_each l (λ _, h) (repr t) = Some (repr (Nat.iter (length l) stepf t)).
Proof.
  intros E. revert t. induction l as [|i l IH]; intros t; [done|]. simpl.
  rewrite E. simpl. rewrite IH. by rewrite Nat.iter_swap.
Qed.

Lemma reciprocal_Int (z : Z) :
  z ≠ 0%Z → reciprocal (F:=F) (Int z) = Some (of_Z 1 / of_Z z).
Proof.
  intros Hz. unfold reciprocal, is_zero.
  by rewrite bool_decide_eq_false_2.
Qed.

Lemma reciprocal_Some (c : number F) :
  is_zero c = false → reciprocal c = Some (of_Z 1 / value c).
Proof. intros E. unfold reciprocal. by rewrite E. Qed.

Lemma reciprocal_None (c : number F) :
  is_zero c = true → reciprocal c = None.
Proof. intros E. unfold reciprocal. by rewrite E. Qed.

Lemma lin_solve_tab iter b n f f0 a c :
  (2 ≤ n)%Z →
  lin_solve iter b (tab n f) (tab n f0) a c
  = (cR ← reciprocal c;
     Some (tab n (Nat.iter (Z.to_nat iter)
                    (λ f, bnd_fun n (relax_fun n f0 (value a) cR f)) f))).
Proof.
  intros Hn. unfold lin_solve, range.
  destruct (reciprocal c) as [cR|]; [|done]. simpl.
  rewrite (for_each_iter (tab n)
             (λ f, bnd_fun n (relax_fun n f0 (value a) cR f))).
  - by rewrite length_seqZ, Z.sub_0_r.
  - intros g. by apply lin_solve_sweep_tab.
Qed.

Lemma clamp_tab N NN n f :
  clamp N NN (tab n f) = tab n (λ i j, clamp_val N NN (f i j)).
Proof. unfold clamp. by rewrite !mask_assign_tab. Qed.

Lemma clip_range lo hi z : (lo ≤ hi)%Z → (lo ≤ clip lo hi z ≤ hi)%Z.
Proof. unfold clip. lia. Qed.

Lemma advect_tab N b d n d0 vx vy dt :
  (2 ≤ n)%Z →
  advect N b d (tab n d0) (tab n vx) (tab n vy) dt n
  = Some (tab n (bnd_fun n (adv_fun N n dt d0 vx vy))).
Proof.
  intros Hn. unfold advect, interpolation. rewrite meshgrid_range.
  rewrite !map1_tab, !map2_tab. simpl.
  rewrite !clamp_tab, !map1_tab, !map2_tab. simpl.
  rewrite !map1_tab.
  assert (Hclip : ∀ z, (- n ≤ clip 0 (n - 1) z < n)%Z).
  { intros z. pose proof (clip_range 0 (n - 1) z). lia. }
  repeat (first [rewrite take2_tab by (intros; split; apply Hclip)
                |rewrite map2_tab]; simpl).
  rewrite set_bnd_tab by done. f_equal.
  apply tab_ext. intros i j _. apply bnd_fun_ext. clear i j. intros i j.
  unfold adv_fun, trace, index0, index1.
  rewrite !nidx_nonneg by (apply clip_range; lia). done.
Qed.

(** The loop nests of [project]. *)
Lemma project_div_cell_tab n vx vy j i fp fd :
  interior n i j →
  project_div_cell (tab n vx) (tab n vy) n j i (tab n fp, tab n fd)
  = Some (tab n (fupd fp i j (of_Z 0)),
          tab n (fupd fd i j (div_fun n vx vy fd i j))).
Proof.
  intros Hij. assert (H' := Hij). destruct H'.
  unfold project_div_cell.
  rewrite !getitem_tab by lia. simpl.
  rewrite !setitem_tab by lia. simpl.
  rewrite !nidx_nonneg by lia.
  unfold div_fun. by rewrite bool_decide_eq_true_2.
Qed.

Lemma project_vel_cell_tab n fp j i vx vy :
  interior n i j →
  project_vel_cell (tab n fp) n j i (tab n vx, tab n vy)
  = Some (tab n (fupd vx i j (grad_fun n fp vx i j)),
          tab n (fupd vy i j (grad_fun n fp vy i j))).
Proof.
  intros Hij. assert (H' := Hij). destruct H'.
  unfold project_vel_cell.
  repeat (first [rewrite getitem_tab by lia|rewrite setitem_tab by lia];
          simpl).
  rewrite !nidx_nonneg by lia.
  unfold grad_fun. by rewrite bool_decide_eq_true_2.
Qed.

Lemma loop_pair_tab n (body : Z → Z → array2 F * array2 F
                                → option (array2 F * array2 F))
    (u1 u2 : Z → Z → F → F) f1 f2 lo hi :
  (∀ j i g1 g2, (lo ≤ j < hi)%Z → (lo ≤ i < hi)%Z →
     body j i (tab n g1, tab n g2)
     = Some (tab n (fupd g1 i j (u1 i j (g1 i j))),
             tab n (fupd g2 i j (u2 i j (g2 i j))))) →
  for_each (range lo hi) (λ j, for_each (range lo hi) (body j))
           (tab n f1, tab n f2)
  = Some (tab n (λ i j, if bool_decide ((lo ≤ i < hi)%Z ∧ (lo ≤ j < hi)%Z)
                        then u1 i j (f1 i j) else f1 i j),
          tab n (λ i j, if bool_decide ((lo ≤ i < hi)%Z ∧ (lo ≤ j < hi)%Z)
                        then u2 i j (f2 i j) else f2 i j)).
Proof.
  intros E.
  pose (s1 := λ (j i : Z) (f : Z → Z → F), fupd f i j (u1 i j (f i j))).
  pose (s2 := λ (j i : Z) (f : Z → Z → F), fupd f i j (u2 i j (f i j))).
  pose proof (for_each_range_cells
                (λ t : (Z → Z → F) * (Z → Z → F), (tab n t.1, tab n t.2))
                (λ j i t, (s1 j i t.1, s2 j i t.2)) body lo hi (f1, f2)) as H.
  simpl in H. rewrite H; clear H.
  - rewrite apply_cells_pair. simpl. do 2 f_equal.
    + apply tab_ext. intros i j _. unfold s1.
      rewrite apply_cells_fupd by apply NoDup_cells.
      pose proof (elem_of_cells lo hi j i).
      repeat case_bool_decide; try done; tauto.
    + apply tab_ext. intros i j _. unfold s2.
      rewrite apply_cells_fupd by apply NoDup_cells.
      pose proof (elem_of_cells lo hi j i).
      repeat case_bool_decide; try done; tauto.
  - intros j i [g1 g2] Hj Hi. simpl. by apply E.
Qed.

Lemma project_tab iter n vx vy fp fd :
  (2 ≤ n)%Z →
  let D := bnd_fun n (div_fun n vx vy fd) in
  let P := pressure_fun iter n D fp in
  project iter (tab n vx) (tab n vy) (tab n fp) (tab n fd) n
  = Some (tab n (bnd_fun n (grad_fun n P vx)),
          tab n (bnd_fun n (grad_fun n P vy)), tab n P, tab n D).
Proof.
  intros Hn D P. unfold project.
  rewrite (loop_pair_tab n _ (λ _ _ _, of_Z 0)
             (λ i j _, div_fun n vx vy fd i j)); last first.
  { intros j i g1 g2 Hj Hi.
    rewrite (project_div_cell_tab n vx vy j i g1 g2)
      by (unfold interior; lia).
    do 3 f_equal. unfold div_fun, interior.
    by rewrite bool_decide_eq_true_2 by lia. }
  simpl.
  assert (E2 : tab n (λ i j, if bool_decide ((1 ≤ i < n - 1)%Z
                                             ∧ (1 ≤ j < n - 1)%Z)
                             then div_fun n vx vy fd i j else fd i j)
               = tab n (div_fun n vx vy fd)).
  { apply tab_ext. intros i j _. unfold div_fun, interior.
    repeat case_bool_decide; try done; lia. }
  assert (E1 : tab n (λ i j, if bool_decide ((1 ≤ i < n - 1)%Z
                                             ∧ (1 ≤ j < n - 1)%Z)
                             then of_Z 0 else fp i j)
               = tab n (zero_fun n fp)).
  { apply tab_ext. intros i j _. unfold zero_fun, interior.
    repeat case_bool_decide; try done; lia. }
  rewrite E1, E2. clear E1 E2.
  rewrite !set_bnd_tab by done. simpl.
  rewrite lin_solve_tab, reciprocal_Int by done. simpl.
  fold D. fold (pressure_fun iter n D fp). fold P.
  pose (u := λ (i j : Z) (v : F),
          v - half * (P (i + 1)%Z j - P (i - 1)%Z j
                      + P i (j + 1)%Z - P i (j - 1)%Z) * of_Z n).
  rewrite (loop_pair_tab n _ u u); last first.
  { intros j i g1 g2 Hj Hi.
    rewrite (project_vel_cell_tab n P j i g1 g2) by (unfold interior; lia).
    do 3 f_equal; unfold grad_fun, interior, u;
      by rewrite bool_decide_eq_true_2 by lia. }
  simpl.
  assert (E : ∀ fv, tab n (λ i j, if bool_decide ((1 ≤ i < n - 1)%Z
                                                  ∧ (1 ≤ j < n - 1)%Z)
                                  then u i j (fv i j) else fv i j)
                    = tab n (grad_fun n P fv)).
  { intros fv. apply tab_ext. intros i j _. unfold grad_fun, interior, u.
    repeat case_bool_decide; try done; lia. }
  rewrite !E, !set_bnd_tab by done. done.
Qed.

End KernelTab.

(** ** Reading results cell by cell *)

Section Cells.
Context {F : Type} `{!Arith F}.
Implicit Types (f g : Z → Z → F) (x : array2 F).
Local Open Scope fl_scope.

Lemma square_tab_cell n x : square n x → x = tab n (cell x).
Proof. apply square_is_tab. Qed.

Lemma cell_tab n f i j : inside n i j → cell (tab n f) i j = f i j.
Proof.
  intros [??]. unfold cell, cell_or.
  rewrite getitem_tab by lia. simpl. by rewrite !nidx_nonneg by lia.
Qed.

Lemma getitem_cell n x i j :
  square n x → inside n i j → getitem x i j = Some (cell x i j).
Proof.
  intros Hx [??]. rewrite (square_tab_cell n x Hx) at 1.
  rewrite getitem_tab by lia. by rewrite !nidx_nonneg by lia.
Qed.

Lemma getitem_tab_inside n f i j :
  inside n i j → getitem (tab n f) i j = Some (f i j).
Proof.
  intros [??]. rewrite getitem_tab by lia. by rewrite !nidx_nonneg by lia.
Qed.

Lemma interior_inside n i j : interior n i j → inside n i j.
Proof. unfold interior, inside. lia. Qed.

Lemma interior_not_corner n i j : interior n i j → ¬ corner n i j.
Proof. unfold interior, corner. lia. Qed.

Lemma jacobi_sweep_with_tab (scale : F → F) b n f0 a f :
  (2 ≤ n)%Z →
  jacobi_sweep_with scale b (tab n f0) a (tab n f)
  = Some (tab n (bnd_fun n (λ i j,
       if bool_decide (interior n i j)
       then scale (f0 i j + a * (f (i - 1)%Z j + f (i + 1)%Z j
                                 + f i (j - 1)%Z + f i (j + 1)%Z))
       else f i j))).
Proof.
  intros Hn. unfold jacobi_sweep_with. rewrite length_tab, Z2Nat.id by lia.
  pose (v := λ i j : Z, scale (f0 i j + a * (f (i - 1)%Z j + f (i + 1)%Z j
                           + f i (j - 1)%Z + f i (j + 1)%Z))).
  rewrite (for_each_range_cells (tab n) (λ j i g, fupd g i j (v i j))).
  - simpl. rewrite set_bnd_tab by done. f_equal.
    apply tab_ext. intros i j _. apply bnd_fun_ext. clear i j. intros i j.
    rewrite (apply_cells_fupd (λ i j _, v i j)) by apply NoDup_cells.
    pose proof (elem_of_cells 1 (n - 1) j i). unfold interior.
    subst v. simpl. repeat case_bool_decide; try done; exfalso.
    + apply H in H0. lia.
    + apply H0, H. lia.
  - intros j i g Hj Hi. unfold stencil_with.
    rewrite !getitem_tab by lia. simpl.
    rewrite setitem_tab by lia. by rewrite !nidx_nonneg by lia.
Qed.

Lemma sweeps_iter (repr : (Z → Z → F) → array2 F) stepf sweep k f :
  (∀ f, sweep (repr f) = Some (repr (stepf f))) →
  sweeps k sweep (repr f) = Some (repr (Nat.iter k stepf f)).
Proof.
  intros E. revert f. induction k as [|k IH]; intros f; [done|]. simpl.
  rewrite E. simpl. rewrite IH. by rewrite Nat.iter_swap.
Qed.

Lemma iter_ext {T} (R : T → T → Prop) (s1 s2 : T → T) k t1 t2 :
  R t1 t2 → (∀ t1 t2, R t1 t2 → R (s1 t1) (s2 t2)) →
  R (Nat.iter k s1 t1) (Nat.iter k s2 t2).
Proof. intros H0 Hs. induction k; simpl; auto. Qed.

Lemma lin_solve_square iter b n (x x0 : array2 F) a c :
  (2 ≤ n)%Z → square n x → square n x0 →
  lin_solve iter b x x0 a c
  = (cR ← reciprocal c;
     Some (tab n (Nat.iter (Z.to_nat iter)
       (λ f, bnd_fun n (relax_fun n (cell x0) (value a) cR f)) (cell x)))).
Proof.
  intros Hn Hx Hx0.
  pose proof (lin_solve_tab iter b n (cell x) (cell x0) a c Hn) as E.
  by rewrite <- (square_tab_cell n x), <- (square_tab_cell n x0) in E.
Qed.

Lemma advect_square N b d n (d0 Vx Vy : array2 F) dt :
  (2 ≤ n)%Z → square n d0 → square n Vx → square n Vy →
  advect N b d d0 Vx Vy dt n
  = Some (tab n (bnd_fun n (adv_fun N n dt (cell d0) (cell Vx) (cell Vy)))).
Proof.
  intros Hn H0 Hx Hy.
  pose proof (advect_tab N b d n (cell d0) (cell Vx) (cell Vy) dt Hn) as E.
  by rewrite <- (square_tab_cell n d0), <- (square_tab_cell n Vx),
    <- (square_tab_cell n Vy) in E.
Qed.

Lemma project_square iter n (velocX velocY p div : array2 F) :
  (2 ≤ n)%Z →
  square n velocX → square n velocY → square n p → square n div →
  let D := bnd_fun n (div_fun n (cell velocX) (cell velocY) (cell div)) in
  let P := pressure_fun iter n D (cell p) in
  project iter velocX velocY p div n
  = Some (tab n (bnd_fun n (grad_fun n P (cell velocX))),
          tab n (bnd_fun n (grad_fun n P (cell velocY))),
          tab n P, tab n D).
Proof.
  intros Hn Hx Hy Hp Hd.
  pose proof (project_tab iter n (cell velocX) (cell velocY) (cell p)
                (cell div) Hn) as E.
  by rewrite <- (square_tab_cell n velocX), <- (square_tab_cell n velocY),
    <- (square_tab_cell n p), <- (square_tab_cell n div) in E.
Qed.

End Cells.

(** ** The boundary enforcer *)

Section Boundary.
Context {F : Type} `{!Arith F}.
Local Open Scope fl_scope.

Lemma set_bnd_square b n (x : array2 F) :
  (2 ≤ n)%Z → square n x →
  set_bnd b x = Some (tab n (bnd_fun n (cell x))).
Proof.
  intros Hn Hx. rewrite (square_tab_cell n x Hx) at 1.
  by apply set_bnd_tab.
Qed.

(** C6, amended.  On a field of dimension [n >= 2], [set_bnd] succeeds and
    returns a field of the same dimension in which every cell that is not
    one of the four corners is unchanged.  Each corner holds the average
    [(u + v) / 2] (in the operand order of the program) of its two
    orthogonal neighbours, read at the moment the corner is written: the
    statements run in the order top-left, top-right, bottom-left,
    bottom-right, so a neighbour that is itself a corner written earlier
    (which happens only for [n = 2]) contributes its new value, and every
    other neighbour its value on entry.  For [n >= 3] all eight neighbours
    are cells that are not corners, and every corner is the average of two
    cells as they were on entry.  The boundary kind [b] is not read. *)
Theorem set_bnd_corner_only (b n : Z) (x : array2 F) :
  (2 ≤ n)%Z → square n x →
  ∃ x', set_bnd b x = Some x' ∧ square n x'
    ∧ (∀ i j, inside n i j → ¬ corner n i j → getitem x' i j = getitem x i j)
    ∧ cell x' 0 0 = avg (cell x 1 0) (cell x 0 1)
    ∧ cell x' 0 (n - 1) = avg (cell x 1 (n - 1)) (cell x' 0 (n - 2))
    ∧ cell x' (n - 1) 0 = avg (cell x' (n - 2) 0) (cell x (n - 1) 1)
    ∧ cell x' (n - 1) (n - 1)
      = avg (cell x' (n - 2) (n - 1)) (cell x' (n - 1) (n - 2))
    ∧ ((3 ≤ n)%Z →
         cell x' 0 (n - 1) = avg (cell x 1 (n - 1)) (cell x 0 (n - 2))
         ∧ cell x' (n - 1) 0 = avg (cell x (n - 2) 0) (cell x (n - 1) 1)
         ∧ cell x' (n - 1) (n - 1)
           = avg (cell x (n - 2) (n - 1)) (cell x (n - 1) (n - 2)))
    ∧ (∀ b', set_bnd b' x = Some x').
Proof.
  intros Hn Hx. eexists. split; [by apply set_bnd_square|].
  split; [apply square_tab; lia|].
  destruct (bnd_fun_corners n (cell x) Hn) as (H1 & H2 & H3 & H4).
  rewrite !cell_tab by (unfold inside; lia).
  repeat split; try done.
  - intros i j Hij Hc. rewrite getitem_tab_inside by done.
    rewrite bnd_fun_frame by done. symmetry. by apply (getitem_cell n).
  - rewrite H2. by rewrite (bnd_fun_frame n _ 0 (n - 2))
      by (unfold corner; lia).
  - rewrite H3. by rewrite (bnd_fun_frame n _ (n - 2) 0)
      by (unfold corner; lia).
  - rewrite H4. by rewrite (bnd_fun_frame n _ (n - 2) (n - 1)),
      (bnd_fun_frame n _ (n - 1) (n - 2)) by (unfold corner; lia).
  - intros b'. by apply set_bnd_square.
Qed.

End Boundary.

Lemma square_sample3 : square 3 sample3.
Proof. split; [reflexivity|]. repeat constructor. Qed.

(** C6, as stated, fails for [n = 2], in [float64] as in exact arithmetic:
    on the field [[1, 2], [3, 4]] the top-right corner ends at 3.25, which
    is the average neither of its two neighbours on entry (1 and 4, average
    2.5) nor of its two neighbours on exit (2.5 and 3.25, average
    2.875). *)
Lemma set_bnd_2x2_counterexample :
  let x := [[float_of_Z 1; float_of_Z 2]; [float_of_Z 3; float_of_Z 4]] in
  ∃ x', set_bnd 0 x = Some x'
    ∧ getitem x' 0 1 = Some (PrimFloat.div (float_of_Z 13) (float_of_Z 4))
    ∧ avg (cell x 1 1) (cell x 0 0)
      = PrimFloat.div (float_of_Z 5) (float_of_Z 2)
    ∧ avg (cell x' 1 1) (cell x' 0 0)
      = PrimFloat.div (float_of_Z 23) (float_of_Z 8)
    ∧ getitem x' 0 1 ≠ Some (avg (cell x 1 1) (cell x 0 0))
    ∧ getitem x' 0 1 ≠ Some (avg (cell x' 1 1) (cell x' 0 0)).
Proof.
  eexists. split; [vm_compute; reflexivity|].
  repeat split; try (vm_compute; reflexivity);
    vm_compute; intros [= H]; try discriminate H.
Qed.

Lemma set_bnd_corner_only_witness :
  2 ≤ 3 ∧ square 3 sample3 ∧
  ∃ x', set_bnd 0 sample3 = Some x' ∧ square 3 x'
    ∧ (∀ i j, inside 3 i j → ¬ corner 3 i j →
         getitem x' i j = getitem sample3 i j)
    ∧ cell x' 0 0 = avg (cell sample3 1 0) (cell sample3 0 1)
    ∧ cell x' 0 (3 - 1) = avg (cell sample3 1 (3 - 1)) (cell x' 0 (3 - 2))
    ∧ cell x' (3 - 1) 0 = avg (cell x' (3 - 2) 0) (cell sample3 (3 - 1) 1)
    ∧ cell x' (3 - 1) (3 - 1)
      = avg (cell x' (3 - 2) (3 - 1)) (cell x' (3 - 1) (3 - 2))
    ∧ (3 ≤ 3 →
         cell x' 0 (3 - 1) = avg (cell sample3 1 (3 - 1)) (cell sample3 0 (3 - 2))
         ∧ cell x' (3 - 1) 0
           = avg (cell sample3 (3 - 2) 0) (cell sample3 (3 - 1) 1)
         ∧ cell x' (3 - 1) (3 - 1)
           = avg (cell sample3 (3 - 2) (3 - 1)) (cell sample3 (3 - 1) (3 - 2)))
    ∧ (∀ b', set_bnd b' sample3 = Some x').
Proof.
  split; [lia|]. split; [apply square_sample3|].
  apply set_bnd_corner_only; [lia|apply square_sample3].
Defined.

(** ** Identities of [float64]

    The identities the statements below assume of the arithmetic, proved
    of IEEE 754 binary64 from the specification of the primitive
    operations. *)

Module Float64.
Import SpecFloat FloatOps FloatAxioms.

(** What the literals 1 and 0, [1.0 / 1] and [1 - 0] evaluate to. *)
Lemma Prim2SF_one : Prim2SF (float_of_Z 1) = SFone64.
Proof. reflexivity. Qed.

Lemma Prim2SF_zero : Prim2SF (float_of_Z 0) = S754_zero false.
Proof. reflexivity. Qed.

Lemma recip_one : (of_Z 1 / of_Z 1)%fl = float_of_Z 1.
Proof. reflexivity. Qed.

Lemma one_minus_zero : (of_Z 1 - of_Z 0)%fl = float_of_Z 1.
Proof. reflexivity. Qed.

(** Multiplication by 1 is exact: the product of the mantissas is the
    mantissa shifted by 52 bits, which rounding shifts back. *)
Lemma SFmul_one_r s m e :
  bounded prec emax m e = true →
  SFmul prec emax (S754_finite s m e) SFone64 = S754_finite s m e.
Proof.
  intros Hb. unfold SFmul, SFone64. rewrite Pos.mul_comm.
  unfold bounded, canonical_mantissa in Hb.
  apply andb_prop in Hb. destruct Hb as [Hc He]. apply Z.eqb_eq in Hc.
  unfold binary_round_aux, shr_fexp.
  cbv [Pos.mul]. cbn [Zdigits2 digits2_pos].
  match goal with |- context [fexp prec emax ?a - (e + -52)] =>
    replace a with (Z.pos (digits2_pos m) + e)
      by (rewrite ?Pos2Z.inj_succ; lia) end.
  rewrite Hc. replace (e - (e + -52)) with 52 by lia.
  cbn [shr shr_record_of_loc iter_pos shr_1 shr_m loc_of_shr_record
       round_nearest_even Zdigits2 orb].
  replace (e + -52 + 52) with e by lia.
  rewrite Hc, Z.sub_diag. cbn [shr shr_m]. rewrite He.
  by destruct s.
Qed.

Lemma SFmul_one_l s m e :
  bounded prec emax m e = true →
  SFmul prec emax SFone64 (S754_finite s m e) = S754_finite s m e.
Proof.
  intros Hb. unfold SFmul, SFone64.
  unfold bounded, canonical_mantissa in Hb.
  apply andb_prop in Hb. destruct Hb as [Hc He]. apply Z.eqb_eq in Hc.
  unfold binary_round_aux, shr_fexp.
  cbv [Pos.mul]. cbn [Zdigits2 digits2_pos].
  match goal with |- context [fexp prec emax ?a - (-52 + e)] =>
    replace a with (Z.pos (digits2_pos m) + e)
      by (rewrite ?Pos2Z.inj_succ; lia) end.
  rewrite Hc. replace (e - (-52 + e)) with 52 by lia.
  cbn [shr shr_record_of_loc iter_pos shr_1 shr_m loc_of_shr_record
       round_nearest_even Zdigits2 orb].
  replace (-52 + e + 52) with e by lia.
  rewrite Hc, Z.sub_diag. cbn [shr shr_m]. by rewrite He.
Qed.

(** [t * 1 = t] and [1 * t = t], for every [t] (NaN and the infinities
    included). *)
Lemma mul_one_r (t : PrimFloat.float) : (t * float_of_Z 1)%fl = t.
Proof.
  apply Prim2SF_inj. cbn [fmul float_arith]. rewrite mul_spec, Prim2SF_one.
  pose proof (Prim2SF_valid t) as Hv.
  destruct (Prim2SF t) as [[]|[]| |s m e]; try done.
  by apply SFmul_one_r.
Qed.

Lemma mul_one_l (t : PrimFloat.float) : (float_of_Z 1 * t)%fl = t.
Proof.
  apply Prim2SF_inj. cbn [fmul float_arith]. rewrite mul_spec, Prim2SF_one.
  pose proof (Prim2SF_valid t) as Hv.
  destruct (Prim2SF t) as [[]|[]| |s m e]; try done.
  by apply SFmul_one_l.
Qed.

(** [0 * s] is a zero when [s] is finite. *)
Lemma mul_zero_l (s : PrimFloat.float) :
  float_finite s → ∃ b, Prim2SF (float_of_Z 0 * s)%fl = S754_zero b.
Proof.
  unfold float_finite. intros Hs. cbn [fmul float_arith].
  rewrite mul_spec, Prim2SF_zero.
  destruct (Prim2SF s) as [b|b| |b m e]; try done; by eexists.
Qed.

(** [s * 0] is a zero when [s] is finite. *)
Lemma mul_zero_r (s : PrimFloat.float) :
  float_finite s → ∃ b, Prim2SF (s * float_of_Z 0)%fl = S754_zero b.
Proof.
  unfold float_finite. intros Hs. cbn [fmul float_arith].
  rewrite mul_spec, Prim2SF_zero.
  destruct (Prim2SF s) as [b|b| |b m e]; try done; by eexists.
Qed.

(** Adding a zero of either sign to a finite value other than [-0.0]
    returns the value. *)
Lemma add_zero_r (t z : PrimFloat.float) b :
  float_plain t → Prim2SF z = S754_zero b → (t + z)%fl = t.
Proof.
  unfold float_plain. intros Ht Hz. apply Prim2SF_inj.
  cbn [fadd float_arith]. rewrite add_spec, Hz.
  destruct (Prim2SF t) as [[]|[]| |s m e]; try done. by destruct b.
Qed.

(** Subtracting a zero of either sign from a finite value other than a
    zero returns the value. *)
Lemma sub_zero_r (t z : PrimFloat.float) b s m e :
  Prim2SF t = S754_finite s m e → Prim2SF z = S754_zero b → (t - z)%fl = t.
Proof.
  intros Ht Hz. apply Prim2SF_inj.
  cbn [fsub float_arith]. by rewrite sub_spec, Hz, Ht.
Qed.

(** A finite value other than a zero minus itself is [+0.0]. *)
Lemma sub_diag (t : PrimFloat.float) s m e :
  Prim2SF t = S754_finite s m e → (t - t)%fl = float_of_Z 0.
Proof.
  intros Ht. apply Prim2SF_inj.
  cbn [fsub float_arith]. rewrite sub_spec, Ht, Prim2SF_zero.
  unfold SF64sub, SFsub. by rewrite Z.sub_diag.
Qed.

(** No value is below itself. *)
Lemma ltb_irrefl (t : PrimFloat.float) : fltb t t = false.
Proof.
  cbn [fltb float_arith]. rewrite ltb_spec. unfold SFltb, SFcompare.
  destruct (Prim2SF t) as [b|[]| |[] m e]; try done;
    by rewrite Z.compare_refl, Pos.compare_cont_refl.
Qed.

(** A finite value other than [-0.0] is finite. *)
Lemma float_plain_finite (t : PrimFloat.float) : float_plain t → float_finite t.
Proof.
  unfold float_plain, float_finite. by destruct (Prim2SF t) as [[]|[]| |].
Qed.

End Float64.

(** The degenerate stencil is exact on every set of finite values other
    than [-0.0] in which the sum of four members is finite. *)
Lemma float_degenerate_stencil_finite (P : PrimFloat.float → Prop) :
  (∀ t, P t → float_plain t) →
  (∀ u v w z, P u → P v → P w → P z → float_finite (u + v + w + z)%fl) →
  degenerate_stencil P.
Proof.
  intros Hp Hs t u v w z Ht Hu Hv Hw Hz.
  rewrite Float64.recip_one, Float64.mul_one_r.
  destruct (Float64.mul_zero_l (u + v + w + z)%fl) as [b Hb]; [by apply Hs|].
  apply (Float64.add_zero_r _ _ b); [by apply Hp|done].
Qed.

(** The trivial interpolation is exact on every set of finite values other
    than [-0.0]. *)
Lemma float_trivial_mix_finite (P : PrimFloat.float → Prop) :
  (∀ t, P t → float_plain t) → trivial_mix P.
Proof.
  intros Hp A B C D HA HB HC HD. unfold trivial_mix.
  rewrite !Float64.one_minus_zero, !Float64.mul_one_l.
  destruct (Float64.mul_zero_l B) as [b Hb];
    [by apply Float64.float_plain_finite, Hp|].
  destruct (Float64.mul_zero_l D) as [d Hd];
    [by apply Float64.float_plain_finite, Hp|].
  rewrite (Float64.add_zero_r A _ b), (Float64.add_zero_r C _ d)
    by (done || by apply Hp).
  destruct (Float64.mul_zero_l C) as [c Hc];
    [by apply Float64.float_plain_finite, Hp|].
  apply (Float64.add_zero_r _ _ c); [by apply Hp|done].
Qed.

(** The zero-velocity grid is exact for every time step whose product with
    [n - 2] is finite, on every grid whose coordinates pass [grid_check]. *)
Lemma float_still_grid_checked (N n : Z) (dt : PrimFloat.float) :
  float_finite (dt * of_Z (n - 2))%fl →
  Forall (λ k, grid_check N k = true) (seqZ 1 (n - 1)) →
  still_grid N n dt.
Proof.
  intros Hdt Hg k Hk.
  assert (grid_check N k = true) as Hc.
  { rewrite Forall_forall in Hg. apply Hg. apply elem_of_seqZ. lia. }
  unfold grid_check in Hc.
  apply andb_prop in Hc. destruct Hc as [Hc H4].
  apply andb_prop in Hc. destruct Hc as [Hc H3].
  apply andb_prop in Hc. destruct Hc as [H1 H2].
  apply negb_true_iff in H2, H3. apply bool_decide_eq_true_1 in H4.
  change (float_of_Z k) with (of_Z k) in *.
  destruct (FloatOps.Prim2SF (of_Z k)) as [| | |s m e] eqn:Ek; try done.
  destruct (Float64.mul_zero_r _ Hdt) as [b Hb].
  repeat split; try done.
  - by apply (Float64.sub_zero_r _ _ b s m e).
  - by apply (Float64.sub_diag _ s m e).
Qed.

(** For instance the grids up to 64 x 64 with the module constant equal to
    the dimension. *)
Lemma float_grid_64 : Forall (λ k, grid_check 64 k = true) (seqZ 1 (64 - 1)).
Proof. apply (bool_decide_unpack _). by vm_compute. Qed.

(** The comparisons of the clamp hold in [float64] as soon as the upper
    bound is not below the lower. *)
Lemma float_clamp_sound_checked (n : Z) :
  fltb (of_Z n + half)%fl (half : PrimFloat.float) = false →
  clamp_sound (F:=PrimFloat.float) n.
Proof.
  intros H. repeat split; [apply Float64.ltb_irrefl..|done].
Qed.

(** ** The linear solver and the diffuser *)

Lemma Qc_recip (u c : Qc) : (u * (Qc_of_Z 1 / c) = u / c)%Qc.
Proof. rewrite Z2Qc_inj_1. unfold Qcdiv. ring. Qed.

Lemma relax_degenerate (u s : Qc) :
  ((u + Qc_of_Z 0 * s) * (Qc_of_Z 1 / Qc_of_Z 1) = u)%Qc.
Proof.
  rewrite Qc_recip, Z2Qc_inj_0, Z2Qc_inj_1. unfold Qcdiv.
  rewrite <- (Qcmult_1_r (/ 1)), Qcmult_inv_l by done. ring.
Qed.

(** Exact arithmetic has the identity of the degenerate stencil
    everywhere. *)
Lemma Qc_degenerate_stencil : degenerate_stencil (λ _ : Qc, True).
Proof. intros t u v w z _ _ _ _ _. apply relax_degenerate. Qed.

(** [float64] has it, for instance, on the values 1, 2, 3. *)
Lemma small_plain (t : PrimFloat.float) : small t → float_plain t.
Proof. intros [->|[->| ->]]; exact I. Qed.

Lemma small_sums (u v w z : PrimFloat.float) :
  small u → small v → small w → small z → float_finite (u + v + w + z)%fl.
Proof.
  intros [->|[->| ->]] [->|[->| ->]] [->|[->| ->]] [->|[->| ->]]; exact I.
Qed.

Lemma float_degenerate_stencil : degenerate_stencil small.
Proof.
  apply float_degenerate_stencil_finite; [apply small_plain|apply small_sums].
Qed.

Lemma square_fcheck3 : square 3 fcheck3.
Proof. split; [reflexivity|]. repeat constructor. Qed.

Lemma square_fsample3 : square 3 fsample3.
Proof. split; [reflexivity|]. repeat constructor. Qed.

Lemma small_fcheck3 (i j : Z) : inside 3 i j → small (cell fcheck3 i j).
Proof.
  intros [Hi Hj].
  assert (i = 0 ∨ i = 1 ∨ i = 2) as [->|[->| ->]] by lia;
    assert (j = 0 ∨ j = 1 ∨ j = 2) as [->|[->| ->]] by lia;
    unfold small; vm_compute; auto.
Qed.

Section Solver.
Context {F : Type} `{!Arith F}.
Implicit Types (f g : Z → Z → F) (x : array2 F).
Local Open Scope fl_scope.

(** The sweeps with [a = 0], [c = 1] keep every cell that is not a corner
    within [P], and put the right-hand side into the interior. *)
Lemma degenerate_sweeps (P : F → Prop) n f0 k f :
  degenerate_stencil P →
  (∀ i j, inside n i j → ¬ corner n i j → P (f i j)) →
  (∀ i j, interior n i j → P (f0 i j)) →
  let g := Nat.iter k (λ f, bnd_fun n (relax_fun n f0 (of_Z 0)
                                         (of_Z 1 / of_Z 1) f)) f in
  (∀ i j, inside n i j → ¬ corner n i j → P (g i j))
  ∧ (∀ i j, (1 ≤ k)%nat → interior n i j → g i j = f0 i j).
Proof.
  intros Hdeg Hf Hf0. induction k as [|k [IH _]]; simpl.
  - split; [done|]. intros; lia.
  - assert (∀ i j, interior n i j →
              relax_fun n f0 (of_Z 0) (of_Z 1 / of_Z 1)
                (Nat.iter k (λ f, bnd_fun n (relax_fun n f0 (of_Z 0)
                                               (of_Z 1 / of_Z 1) f)) f) i j
              = f0 i j) as E.
    { intros i j Hij. unfold relax_fun.
      rewrite bool_decide_eq_true_2 by done.
      apply Hdeg; [by apply Hf0|..]; apply IH;
        unfold inside, interior, corner in *; lia. }
    split.
    + intros i j Hin Hc. rewrite bnd_fun_frame by done.
      destruct (decide (interior n i j)) as [Hi|Hi].
      * rewrite E by done. by apply Hf0.
      * rewrite relax_fun_frame by done. by apply IH.
    + intros i j _ Hij.
      rewrite bnd_fun_frame by by apply interior_not_corner. by apply E.
Qed.

(** C9, amended.  With [a = 0] and [c = 1], after any positive number of
    sweeps every interior cell of the result of [lin_solve] holds the value
    of the right-hand side [x0] at that cell, whatever the boundary kind
    [b], provided the degenerate stencil is exact on the values involved:
    for every set [P] of values on which [(t + 0*(u + v + w + z))*(1/1) = t]
    and which holds the interior cells of [x0] and the cells of the initial
    guess [x] other than its corners (fields of dimension [n >= 2], any
    arithmetic).  Exact arithmetic has the identity for all values
    ([Qc_degenerate_stencil]); [float64] has it on every set of finite
    values other than [-0.0] in which the sum of any four members is
    finite ([float_degenerate_stencil_finite]), and loses it where the sum
    of the four neighbours overflows. *)
Theorem lin_solve_degenerate (iter b n : Z) (x x0 : array2 F)
    (P : F → Prop) :
  (2 ≤ n)%Z → (1 ≤ iter)%Z → square n x → square n x0 →
  degenerate_stencil P →
  (∀ i j, inside n i j → ¬ corner n i j → P (cell x i j)) →
  (∀ i j, interior n i j → P (cell x0 i j)) →
  ∃ x', lin_solve iter b x x0 (Int 0) (Int 1) = Some x' ∧ square n x'
    ∧ ∀ i j, interior n i j → getitem x' i j = getitem x0 i j.
Proof.
  intros Hn Hiter Hx Hx0 Hdeg HP HP0.
  rewrite (lin_solve_square iter b n), reciprocal_Int by done.
  eexists. split; [done|]. split; [apply square_tab; lia|].
  intros i j Hij.
  rewrite getitem_tab_inside by by apply interior_inside.
  rewrite (getitem_cell n x0) by (done || by apply interior_inside).
  f_equal.
  destruct (degenerate_sweeps P n (cell x0) (Z.to_nat iter) (cell x)
              Hdeg HP HP0) as [_ E].
  apply E; [lia|done].
Qed.

(** The program against the solver that takes the reciprocal once. *)
Lemma lin_solve_sweeps (iter b n : Z) (x x0 : array2 F) (a c : number F) :
  (2 ≤ n)%Z → square n x → square n x0 →
  lin_solve iter b x x0 a c = solve_linear_recip iter b x x0 a c
  ∧ (is_zero c = true → lin_solve iter b x x0 a c = None)
  ∧ (is_zero c = false →
       ∃ x', lin_solve iter b x x0 a c = Some x' ∧ square n x').
Proof.
  intros Hn Hx Hx0.
  rewrite (square_tab_cell n x Hx), (square_tab_cell n x0 Hx0).
  generalize (cell x) (cell x0). clear x x0 Hx Hx0. intros f f0.
  rewrite lin_solve_tab by done. unfold solve_linear_recip.
  split; [|split].
  - destruct (reciprocal c) as [cR|]; [|done]. simpl.
    erewrite (sweeps_iter (tab n));
      [|intros g; by apply jacobi_sweep_with_tab].
    done.
  - intros E. by rewrite reciprocal_None.
  - intros E. rewrite reciprocal_Some by done. simpl.
    eexists. split; [done|]. apply square_tab. lia.
Qed.

(** C5, amended.  On fields of dimension [n >= 2], [lin_solve] is the
    solver of the specification with one change: the reciprocal of [c] is
    computed once, before the first sweep, and every sweep multiplies by
    it where the specification divides by [c].  So there are exactly
    [iter] sweeps, each assigning to every interior cell
    [(x0[i,j] + a*(x[i-1,j] + x[i+1,j] + x[i,j-1] + x[i,j+1])) * (1/c)]
    with the four neighbours read from the field as it was before the
    sweep, each followed by the boundary enforcer, and the field after the
    last sweep is returned; when [c] is zero the call fails before the
    first sweep, whatever [iter] is (any arithmetic). *)
Theorem lin_solve_is_jacobi (iter b n : Z) (x x0 : array2 F)
    (a c : number F) :
  (2 ≤ n)%Z → square n x → square n x0 →
  lin_solve iter b x x0 a c = solve_linear_recip iter b x x0 a c
  ∧ (is_zero c = true → lin_solve iter b x x0 a c = None)
  ∧ (is_zero c = false →
       ∃ x', lin_solve iter b x x0 a c = Some x' ∧ square n x').
Proof.
  intros Hn Hx Hx0. split; [|split].
  - by apply (lin_solve_sweeps iter b n).
  - intros E. by apply (lin_solve_sweeps iter b n x x0 a c).
  - intros E. by apply (lin_solve_sweeps iter b n x x0 a c).
Qed.

(** C8, amended.  For every [NN] such that [NN - 2] can be converted to a
    float, [diffuse] computes [a] as the product [dt*diff*(NN-2)*(NN-2)],
    taken from left to right, and returns what [lin_solve] returns for the
    coefficients [a] and [1 + 6a]: on fields of dimension [n >= 2] that is
    the result of the solver of the specification (with the reciprocal of
    [1 + 6a] taken once), and a failure when [1 + 6a] is zero.  It is the
    diffuser of the specification whenever the product equals
    [dt*diff*(NN-2)^2], as it does in exact arithmetic (any arithmetic). *)
Theorem diffuse_is_lin_solve (iter b n NN : Z) (x x0 : array2 F)
    (diff dt : F) :
  (2 ≤ n)%Z → square n x → square n x0 → convertible (NN - 2) →
  let a := dt * diff * of_Z (NN - 2) * of_Z (NN - 2) in
  let c := of_Z 1 + of_Z 6 * a in
  diffuse iter b x x0 diff dt NN
  = lin_solve iter b x x0 (Float a) (Float c)
  ∧ diffuse iter b x x0 diff dt NN
    = solve_linear_recip iter b x x0 (Float a) (Float c)
  ∧ (fis_zero c = true → diffuse iter b x x0 diff dt NN = None)
  ∧ (fis_zero c = false →
       ∃ x', diffuse iter b x x0 diff dt NN = Some x' ∧ square n x')
  ∧ (a = dt * diff * of_Z ((NN - 2) ^ 2) →
       diffuse iter b x x0 diff dt NN = diffuse_spec iter b x x0 diff dt NN).
Proof.
  intros Hn Hx Hx0 _ a c. unfold diffuse. fold a. fold c.
  destruct (lin_solve_sweeps iter b n x x0 (Float a) (Float c))
    as (E1 & E2 & E3); [done..|].
  repeat split; try done.
  intros E. unfold diffuse_spec. rewrite <- E. done.
Qed.

End Solver.

(** C9, as stated, fails in [float64] for a guess whose neighbour sums
    overflow: with every cell of [x] at [2^1023], one sweep with [a = 0],
    [c = 1] leaves NaN in the centre of a 3 x 3 field, where the
    right-hand side holds 5. *)
Lemma lin_solve_degenerate_counterexample :
  ∃ x', lin_solve 1 0 (fconst 3 (float_of_Z (2 ^ 1023))) fsample3
                  (Int 0) (Int 1) = Some x'
    ∧ getitem x' 1 1 = Some PrimFloat.nan
    ∧ getitem fsample3 1 1 = Some (float_of_Z 5)
    ∧ getitem x' 1 1 ≠ getitem fsample3 1 1.
Proof.
  eexists. split; [vm_compute; reflexivity|].
  repeat split; try (vm_compute; reflexivity).
  vm_compute. intros [= H]; try discriminate H.
Qed.

Lemma lin_solve_degenerate_witness :
  (∃ x', lin_solve 20 0 fcheck3 fcheck3 (Int 0) (Int 1) = Some x'
     ∧ square 3 x'
     ∧ ∀ i j, interior 3 i j → getitem x' i j = getitem fcheck3 i j)
  ∧ (∃ x', lin_solve 20 0 sample3 (zeros 3) (Int 0) (Int 1) = Some x'
       ∧ square 3 x'
       ∧ ∀ i j, interior 3 i j → getitem x' i j = getitem (zeros 3) i j).
Proof.
  split.
  - apply (lin_solve_degenerate 20 0 3 fcheck3 fcheck3 small);
      [lia|lia|apply square_fcheck3|apply square_fcheck3
      |apply float_degenerate_stencil| |].
    + intros i j Hin _. by apply small_fcheck3.
    + intros i j Hij. by apply small_fcheck3, interior_inside.
  - apply (lin_solve_degenerate 20 0 3 sample3 (zeros 3) (λ _, True));
      [lia|lia|apply square_sample3|apply square_tab; lia
      |apply Qc_degenerate_stencil|done|done].
Defined.

(** C5, as stated, fails in [float64]: the program multiplies by the
    rounded reciprocal.  On the 3 x 3 field of 49s with [a = 0], [c = 49]
    one sweep of the program leaves the double just below 1 in the centre,
    where the division of the specification gives 1.  And with [c = 0] the
    program fails, where the division of the specification returns a
    field. *)
Lemma lin_solve_recip_counterexample :
  let x := fconst 3 (float_of_Z 49) in
  ∃ x' y' z',
    lin_solve 1 0 x x (Int 0) (Int 49) = Some x'
    ∧ solve_linear 1 0 x x (of_Z 0) (of_Z 49) = Some y'
    ∧ getitem y' 1 1 = Some (float_of_Z 1)
    ∧ getitem x' 1 1 = Some (PrimFloat.next_down (float_of_Z 1))
    ∧ getitem x' 1 1 ≠ getitem y' 1 1
    ∧ lin_solve 1 0 x x (Int 0) (Int 0) = None
    ∧ solve_linear 1 0 x x (of_Z 0) (of_Z 0) = Some z'.
Proof.
  do 3 eexists. split; [vm_compute; reflexivity|].
  split; [vm_compute; reflexivity|].
  repeat split; try (vm_compute; reflexivity).
  vm_compute. intros [= H]; try discriminate H.
Qed.

Lemma lin_solve_is_jacobi_witness :
  lin_solve 20 0 fcheck3 fcheck3 (Int 1) (Int 6)
  = solve_linear_recip 20 0 fcheck3 fcheck3 (Int 1) (Int 6)
  ∧ (is_zero (F:=PrimFloat.float) (Int 6) = true →
       lin_solve 20 0 fcheck3 fcheck3 (Int 1) (Int 6) = None)
  ∧ (is_zero (F:=PrimFloat.float) (Int 6) = false →
       ∃ x', lin_solve 20 0 fcheck3 fcheck3 (Int 1) (Int 6) = Some x'
             ∧ square 3 x').
Proof.
  apply (lin_solve_is_jacobi 20 0 3 fcheck3 fcheck3 (Int 1) (Int 6));
    [lia|apply square_fcheck3|apply square_fcheck3].
Defined.

(** C8, as stated, fails in [float64]: with [dt = 0.1], [diff = 1] and
    [NN = 5] the program computes [a = 0.1*1*3*3 = 0.9000000000000001],
    where [dt*diff*(NN-2)^2 = 0.1*9 = 0.9]; on the 5 x 5 field of ones one
    sweep leaves different values in the cell (1, 1). *)
Lemma diffuse_coefficient_counterexample :
  let dt := PrimFloat.div (float_of_Z 1) (float_of_Z 10) in
  let x := fconst 5 (float_of_Z 1) in
  ∃ x' y',
    diffuse 1 0 x x (float_of_Z 1) dt 5 = Some x'
    ∧ diffuse_spec 1 0 x x (float_of_Z 1) dt 5 = Some y'
    ∧ getitem x' 1 1 ≠ getitem y' 1 1
    ∧ PrimFloat.mul (PrimFloat.mul (PrimFloat.mul dt (float_of_Z 1))
                                   (float_of_Z 3)) (float_of_Z 3)
      ≠ PrimFloat.mul (PrimFloat.mul dt (float_of_Z 1)) (float_of_Z 9).
Proof.
  do 2 eexists. split; [vm_compute; reflexivity|].
  split; [vm_compute; reflexivity|].
  split; vm_compute; [intros [= H]|intros H]; try discriminate H.
Qed.

(** In exact arithmetic the two products agree. *)
Lemma Qc_diffuse_coefficient (diff dt : Qc) (NN : Z) :
  (dt * diff * of_Z (NN - 2) * of_Z (NN - 2))%fl
  = (dt * diff * of_Z ((NN - 2) ^ 2))%fl.
Proof. qc_arith. rewrite Z.pow_2_r, Z2Qc_inj_mul. ring. Qed.

Lemma diffuse_is_lin_solve_witness :
  (let a := (float_of_Z 1 * float_of_Z 1 * of_Z (3 - 2) * of_Z (3 - 2))%fl in
   let c := (of_Z 1 + of_Z 6 * a)%fl in
   diffuse 20 0 fcheck3 fcheck3 (float_of_Z 1) (float_of_Z 1) 3
   = solve_linear_recip 20 0 fcheck3 fcheck3 (Float a) (Float c))
  ∧ diffuse 20 0 sample3 sample3 (Qc_of_Z 1) (Qc_of_Z 1) 3
    = diffuse_spec 20 0 sample3 sample3 (Qc_of_Z 1) (Qc_of_Z 1) 3.
Proof.
  split.
  - exact (proj1 (proj2 (diffuse_is_lin_solve 20 0 3 3 fcheck3 fcheck3
             (float_of_Z 1) (float_of_Z 1) ltac:(lia)
             square_fcheck3 square_fcheck3 eq_refl))).
  - exact (proj2 (proj2 (proj2 (proj2 (diffuse_is_lin_solve 20 0 3 3
             sample3 sample3 (Qc_of_Z 1) (Qc_of_Z 1) ltac:(lia)
             square_sample3 square_sample3 eq_refl))))
             (Qc_diffuse_coefficient (Qc_of_Z 1) (Qc_of_Z 1) 3)).
Defined.

(** ** The advector *)

Lemma Qc_half_pos : (0 < Q2Qc (1 # 2))%Qc.
Proof. done. Qed.

Lemma Qc_of_Z_lt_half k : (Qc_of_Z k < Q2Qc (1 # 2))%Qc ↔ k ≤ 0.
Proof.
  unfold Qclt, Qlt. simpl. lia.
Qed.

Lemma Qc_of_Z_le_plus_half n k :
  k ≤ n → ¬ (Qc_of_Z n + Q2Qc (1 # 2) < Qc_of_Z k)%Qc.
Proof.
  intros Hk. apply Qcle_not_lt.
  trans (Qc_of_Z n); [by apply (proj1 (Z2Qc_inj_le _ _))|].
  rewrite <- (Qcplus_0_r (Qc_of_Z n)) at 1.
  apply Qcplus_le_mono_l, Qclt_le_weak, Qc_half_pos.
Qed.

Lemma Qc_floor_of_Z k : Qfloor (this (Qc_of_Z k)) = k.
Proof. apply Qfloor_Z. Qed.

Lemma clamp_val_range (n : Z) (v : Qc) :
  0 ≤ n →
  (Q2Qc (1 # 2) ≤ clamp_val n n v ≤ Qc_of_Z n + Q2Qc (1 # 2))%Qc.
Proof.
  intros Hn. unfold clamp_val. qc_arith.
  assert (Q2Qc (1 # 2) ≤ Qc_of_Z n + Q2Qc (1 # 2))%Qc as Hlo.
  { rewrite <- (Qcplus_0_l (Q2Qc (1 # 2))) at 1.
    apply Qcplus_le_mono_r. rewrite <- Z2Qc_inj_0.
    by apply (proj1 (Z2Qc_inj_le _ _)). }
  repeat case_bool_decide; split; try done;
    try (by apply Qcnot_lt_le); by apply Qclt_le_weak.
Qed.

(** Exact arithmetic has the identities of the zero-velocity grid whenever
    the module constant is at least [n - 1], and the identity of the
    trivial interpolation everywhere. *)
Lemma Qc_still_grid (N n : Z) (dt : Qc) : n - 1 ≤ N → still_grid N n dt.
Proof.
  intros HN k Hk. repeat split.
  - qc_arith. ring.
  - apply bool_decide_eq_false_2. rewrite Qc_of_Z_lt_half. lia.
  - apply bool_decide_eq_false_2. apply Qc_of_Z_le_plus_half. lia.
  - apply Qc_floor_of_Z.
  - qc_arith. ring.
Qed.

Lemma Qc_trivial_mix : trivial_mix (λ _ : Qc, True).
Proof. intros A B C D _ _ _ _. qc_arith. ring. Qed.

(** [float64] has them, for instance, on a 3 x 3 grid with time step 1 and
    the module constant 2, and on the values 1, 2, 3. *)
Lemma float_still_grid : still_grid 2 3 (float_of_Z 1).
Proof.
  apply float_still_grid_checked; [exact I|].
  apply (bool_decide_unpack _). by vm_compute.
Qed.

Lemma float_trivial_mix : trivial_mix small.
Proof. apply float_trivial_mix_finite, small_plain. Qed.

Lemma float_clamp_sound : clamp_sound (F:=PrimFloat.float) 3.
Proof. by apply float_clamp_sound_checked. Qed.

Section Advector.
Context {F : Type} `{!Arith F}.
Implicit Types (f g : Z → Z → F) (x : array2 F).
Local Open Scope fl_scope.

Lemma index_range (n : Z) (v : F) :
  (2 ≤ n)%Z →
  (0 ≤ index0 n v ≤ n - 1)%Z ∧ (0 ≤ index1 n v ≤ n - 1)%Z.
Proof.
  intros Hn. unfold index0, index1. split; apply clip_range; lia.
Qed.

(** A coordinate that passes both tests of the clamp is kept. *)
Lemma clamp_val_pass (N NN : Z) (v : F) :
  fltb v half = false → fltb (of_Z N + half) v = false →
  clamp_val N NN v = v.
Proof. intros E1 E2. unfold clamp_val. by rewrite E1, E2. Qed.

(** After the two assignments neither test holds of the coordinate. *)
Lemma clamp_val_sound (n : Z) (v : F) :
  clamp_sound n →
  fltb (clamp_val n n v) half = false
  ∧ fltb (of_Z n + half) (clamp_val n n v) = false.
Proof.
  intros (S1 & S2 & S3). unfold clamp_val.
  destruct (fltb v half) eqn:E1.
  - rewrite S3. by rewrite S1, S3.
  - destruct (fltb (of_Z n + half) v) eqn:E2; [by rewrite S3, S2|done].
Qed.

(** With zero velocity the interpolation reads the cell itself. *)
Lemma adv_fun_still (N n : Z) (dt : F) (P : F → Prop) d0 vx vy (i j : Z) :
  (2 ≤ n ≤ 2 ^ 31)%Z → still_grid N n dt → trivial_mix P →
  (∀ i j, inside n i j → P (d0 i j)) →
  (1 ≤ i < n)%Z → (1 ≤ j < n)%Z →
  vx i j = of_Z 0 → vy i j = of_Z 0 →
  adv_fun N n dt d0 vx vy i j = d0 i j.
Proof.
  intros Hn Hg Hm HP Hi Hj Hx Hy. unfold adv_fun, trace. cbv zeta.
  rewrite Hx, Hy.
  destruct (Hg i) as (Ti & Ai & Bi & Fi & Zi); [lia|].
  destruct (Hg j) as (Tj & Aj & Bj & Fj & Zj); [lia|].
  rewrite Ti, Tj. rewrite !clamp_val_pass by done.
  assert (index0 n (of_Z i) = i) as Ei.
  { unfold index0, astype_int32, clip. rewrite Fi.
    rewrite bool_decide_eq_true_2 by lia. lia. }
  assert (index0 n (of_Z j) = j) as Ej.
  { unfold index0, astype_int32, clip. rewrite Fj.
    rewrite bool_decide_eq_true_2 by lia. lia. }
  rewrite Ei, Ej, Zi, Zj.
  destruct (index_range n (of_Z i)) as [_ Ri]; [lia|].
  destruct (index_range n (of_Z j)) as [_ Rj]; [lia|].
  apply Hm; apply HP; unfold inside; lia.
Qed.

(** C3, amended.  With zero velocity, [advect] returns the source field at
    every cell with [i >= 1] and [j >= 1] other than the corner
    [(n-1, n-1)], on fields of dimension [2 <= n <= 2^31], provided the
    arithmetic is exact on the values involved: the grid coordinates
    [1 .. n-1] are not moved by the zero displacement [dt*(n-2)*0], pass
    both tests of the clamp (the second compares with the module constant
    [N], so this needs [n - 1 <= N]) and are their own floor
    ([still_grid]), and interpolation with the weights 1 and 0 returns its
    first sample for the cells of [d0] ([trivial_mix]).  Exact arithmetic
    has these identities for every [dt] and every field whenever
    [n - 1 <= N] ([Qc_still_grid], [Qc_trivial_mix]).  [float64] has them
    when [dt*(n-2)] is finite, the coordinates pass [grid_check] (as those
    up to 64 do with [N = 64]) and the cells of [d0] are finite and not
    [-0.0] ([float_still_grid_checked], [float_trivial_mix_finite]); it
    loses them where [dt*(n-2)] overflows.  The cells of row 0 and of
    column 0 are not covered: they receive the mean of two cells of
    [d0]. *)
Theorem advect_zero_velocity (N b n : Z) (d d0 Vx Vy : array2 F) (dt : F)
    (P : F → Prop) :
  (2 ≤ n ≤ 2 ^ 31)%Z → square n d0 → square n Vx → square n Vy →
  (∀ i j, inside n i j →
     getitem Vx i j = Some (of_Z 0) ∧ getitem Vy i j = Some (of_Z 0)) →
  still_grid N n dt → trivial_mix P →
  (∀ i j, inside n i j → P (cell d0 i j)) →
  ∃ d', advect N b d d0 Vx Vy dt n = Some d' ∧ square n d'
    ∧ ∀ i j, (1 ≤ i < n)%Z → (1 ≤ j < n)%Z → ¬ corner n i j →
        getitem d' i j = getitem d0 i j.
Proof.
  intros Hn H0 Hx Hy Hz Hg Hm HP.
  rewrite (advect_square N b d n) by (done || lia).
  eexists. split; [done|]. split; [apply square_tab; lia|].
  intros i j Hi Hj Hc.
  assert (Hin : inside n i j) by (unfold inside; lia).
  rewrite getitem_tab_inside, bnd_fun_frame by done.
  rewrite (getitem_cell n d0) by done. f_equal.
  destruct (Hz i j Hin) as [Ex Ey].
  apply (adv_fun_still N n dt P); try done.
  - unfold cell, cell_or. by rewrite Ex.
  - unfold cell, cell_or. by rewrite Ey.
Qed.

(** C7, amended.  For fields of dimension [n >= 2], any velocity field, any
    time step and any value of the module constant [N]: clipping leaves
    every sampling index in [0, n - 1], [advect] succeeds, and every cell
    of the result that is not a corner is interpolated from the cells of
    [d0] at those indices, so no read of [d0] leaves the array (any
    arithmetic, NaN coordinates included).  The coordinates themselves are
    bounded only when the module constant is the dimension passed
    ([N = n]): then, after the two mask assignments, neither [x < 0.5] nor
    [x > n + 0.5] holds of a coordinate, in any arithmetic in which the
    bounds are not below themselves and [n + 0.5] is not below [0.5]
    ([clamp_sound]; in [float64] the first two always hold,
    [float_clamp_sound_checked]); a NaN coordinate stays NaN. *)
Theorem advect_in_bounds (N b n : Z) (d d0 Vx Vy : array2 F) (dt : F) :
  (2 ≤ n)%Z → square n d0 → square n Vx → square n Vy →
  (∀ v : F, (0 ≤ index0 n v ≤ n - 1)%Z ∧ (0 ≤ index1 n v ≤ n - 1)%Z)
  ∧ (∃ d', advect N b d d0 Vx Vy dt n = Some d' ∧ square n d'
      ∧ ∀ i j, inside n i j → ¬ corner n i j →
          let x := cell (clamp N n (tab n (λ i j,
                         of_Z i - dt * of_Z (n - 2) * cell Vx i j))) i j in
          let y := cell (clamp N n (tab n (λ i j,
                         of_Z j - dt * of_Z (n - 2) * cell Vy i j))) i j in
          let s1 := x - of_Z (index0 n x) in
          let t1 := y - of_Z (index0 n y) in
          getitem d' i j
          = Some ((of_Z 1 - s1)
                  * ((of_Z 1 - t1) * cell d0 (index0 n x) (index0 n y)
                     + t1 * cell d0 (index0 n x) (index1 n y))
                  + s1 * ((of_Z 1 - t1) * cell d0 (index1 n x) (index0 n y)
                          + t1 * cell d0 (index1 n x) (index1 n y))))
  ∧ (N = n → clamp_sound n →
     ∀ x i j, square n x → inside n i j →
       fltb (cell (clamp N n x) i j) half = false
       ∧ fltb (of_Z n + half) (cell (clamp N n x) i j) = false).
Proof.
  intros Hn H0 Hx Hy. split; [|split].
  - intros v. by apply index_range.
  - rewrite (advect_square N b d n) by done.
    eexists. split; [done|]. split; [apply square_tab; lia|].
    intros i j Hij Hc. simpl.
    rewrite getitem_tab_inside, bnd_fun_frame by done.
    rewrite !clamp_tab, !cell_tab by done. done.
  - intros -> Hs x i j Hsq Hij.
    rewrite (square_tab_cell n x Hsq), clamp_tab.
    rewrite cell_tab by done. by apply clamp_val_sound.
Qed.

End Advector.

(** C3, as stated, fails, in [float64] as in exact arithmetic.  With zero
    velocity the cells of row 0 and column 0 are traced to the coordinate
    0.5 and receive the mean of two source cells: cell (0, 1) of the 3 x 3
    sample holds 2 and comes back as 3.5.  When the module constant is
    smaller than the dimension passed, here 1 against 4, other cells
    change too: cell (1, 2) holds 6 and comes back as 7.  And with the
    time step [2^1023] on a 4 x 4 field the displacement [dt*(n-2)*0] is
    NaN, and so is every cell of the result. *)
Lemma advect_zero_velocity_edge_counterexample :
  let zero n := fconst n (float_of_Z 0) in
  let d0 := tab 4 (λ i j, float_of_Z (4 * i + j)) in
  ∃ d1 d2 d3,
    advect 3 0 (zero 3) fsample3 (zero 3) (zero 3) (float_of_Z 1) 3
    = Some d1
    ∧ inside 3 0 1 ∧ ¬ corner 3 0 1
    ∧ getitem fsample3 0 1 = Some (float_of_Z 2)
    ∧ getitem d1 0 1 = Some (PrimFloat.div (float_of_Z 7) (float_of_Z 2))
    ∧ getitem d1 0 1 ≠ getitem fsample3 0 1
    ∧ advect 1 0 (zero 4) d0 (zero 4) (zero 4) (float_of_Z 1) 4 = Some d2
    ∧ getitem d0 1 2 = Some (float_of_Z 6)
    ∧ getitem d2 1 2 = Some (float_of_Z 7)
    ∧ advect 4 0 (zero 4) d0 (zero 4) (zero 4)
             (float_of_Z (2 ^ 1023)) 4 = Some d3
    ∧ getitem d3 1 1 = Some PrimFloat.nan
    ∧ getitem d0 1 1 = Some (float_of_Z 5).
Proof.
  do 3 eexists. split; [vm_compute; reflexivity|].
  split; [unfold inside; lia|]. split; [unfold corner; lia|].
  split; [vm_compute; reflexivity|]. split; [vm_compute; reflexivity|].
  split; [vm_compute; intros [= H]; try discriminate H|].
  split; [vm_compute; reflexivity|].
  split; [vm_compute; reflexivity|]. split; [vm_compute; reflexivity|].
  split; [vm_compute; reflexivity|].
  split; vm_compute; reflexivity.
Qed.

Lemma advect_zero_velocity_witness :
  (∃ d', advect 2 0 (fconst 3 (float_of_Z 0)) fcheck3
                (fconst 3 (float_of_Z 0)) (fconst 3 (float_of_Z 0))
                (float_of_Z 1) 3 = Some d'
     ∧ square 3 d'
     ∧ ∀ i j, 1 ≤ i < 3 → 1 ≤ j < 3 → ¬ corner 3 i j →
         getitem d' i j = getitem fcheck3 i j)
  ∧ (∃ d', advect 3 0 (zeros 3) sample3 (zeros 3) (zeros 3) (Qc_of_Z 1) 3
           = Some d'
       ∧ square 3 d'
       ∧ ∀ i j, 1 ≤ i < 3 → 1 ≤ j < 3 → ¬ corner 3 i j →
           getitem d' i j = getitem sample3 i j).
Proof.
  split.
  - apply (advect_zero_velocity 2 0 3 _ fcheck3 _ _ (float_of_Z 1) small);
      [lia|apply square_fcheck3|apply square_tab; lia|apply square_tab; lia
      | |apply float_still_grid|apply float_trivial_mix|apply small_fcheck3].
    intros i j Hij. unfold fconst. by rewrite !getitem_tab_inside.
  - apply (advect_zero_velocity 3 0 3 _ sample3 _ _ (Qc_of_Z 1) (λ _, True));
      [lia|apply square_sample3|apply square_tab; lia|apply square_tab; lia
      | |apply Qc_still_grid; lia|apply Qc_trivial_mix|done].
    intros i j Hij. unfold zeros. by rewrite !getitem_tab_inside.
Defined.

(** An index outside the array makes a read fail in this model: the
    success of [advect] below does mean that every read was in bounds. *)
Lemma take2_out_of_bounds (n m k : Z) (d0 : Z → Z → Qc) :
  0 ≤ m → 1 ≤ n → ¬ (- m ≤ k < m) →
  take2 (tab m d0) (tab n (λ _ _, k)) (tab n (λ _ _, 0)) = None.
Proof.
  intros Hm Hn Hk. unfold take2. rewrite map2_tab. simpl.
  destruct (mapM _ _) as [r|] eqn:E; [|done]. exfalso.
  apply mapM_Some_1 in E.
  assert (Hr : tab n (λ _ _ : Z, (k, 0)) !! 0%nat
               = Some ((λ _ : Z, (k, 0)) <$> seqZ 0 n)).
  { rewrite lookup_tab. by rewrite decide_True by lia. }
  destruct (Forall2_lookup_l _ _ _ _ _ E Hr) as (row & _ & Hrow).
  apply mapM_Some_1 in Hrow.
  assert (Hc : ((λ _ : Z, (k, 0)) <$> seqZ 0 n) !! 0%nat = Some (k, 0)).
  { rewrite lookup_row. by rewrite decide_True by lia. }
  destruct (Forall2_lookup_l _ _ _ _ _ Hrow Hc) as (v & _ & Hv).
  simpl in Hv. rewrite getitem_tab_out in Hv by (done || lia). done.
Qed.

(** C7, as stated, fails for the coordinates.  The second test of the
    clamp compares with the module constant, not with the dimension
    passed: with the module constant 9, the dimension 4, [dt = 0.5] and
    the velocity -5 the coordinate of row 2 is 7 and stays 7, above 4.5.
    And in [float64] a coordinate that is NaN (time step [2^1023], zero
    velocity) passes both tests and stays NaN. *)
Lemma advect_clamp_counterexample :
  let coordinate (dt v : PrimFloat.float) :=
    tab 4 (λ i j : Z, (of_Z i - dt * of_Z (4 - 2) * v)%fl) in
  cell (clamp 9 4 (coordinate half (float_of_Z (-5)))) 2 1 = float_of_Z 7
  ∧ fltb (of_Z 4 + half)%fl (float_of_Z 7) = true
  ∧ cell (clamp 4 4 (coordinate (float_of_Z (2 ^ 1023)) (float_of_Z 0))) 2 1
    = PrimFloat.nan
  ∧ fltb PrimFloat.nan half = false
  ∧ fltb (of_Z 4 + half)%fl PrimFloat.nan = false.
Proof. repeat split; vm_compute; reflexivity. Qed.

Lemma advect_in_bounds_witness :
  (∃ d', advect 3 0 (fconst 3 (float_of_Z 0)) fsample3 fsample3 fsample3
                (float_of_Z 1) 3 = Some d'
         ∧ square 3 d')
  ∧ (∀ x i j, square 3 x → inside 3 i j →
       fltb (cell (clamp 3 3 x) i j) half = false
       ∧ fltb (of_Z 3 + half)%fl (cell (clamp 3 3 x) i j) = false).
Proof.
  destruct (advect_in_bounds 3 0 3 (fconst 3 (float_of_Z 0)) fsample3
              fsample3 fsample3 (float_of_Z 1))
    as (_ & (d' & Hd & Hsq & _) & Hc);
    [lia|apply square_fsample3..|].
  split; [exact (ex_intro _ d' (conj Hd Hsq))|].
  exact (Hc eq_refl float_clamp_sound).
Defined.

(** ** The projector *)

Section Projector.
Context {F : Type} `{!Arith F}.
Implicit Types (f g : Z → Z → F).
Local Open Scope fl_scope.






End Projector.

(** *** Zero fields, in exact arithmetic *)











(** *** The border of the caller's buffers *)





(** C1.  The program at a concrete input: dimension 4, four sweeps, [p],
    [div] and [velocY] zero, [velocX] zero except for a 1 at (2, 2).  At the
    interior cell (1, 1) the program subtracts 0.5*N times the sum of the
    pressure differences along both axes from [velocX], and the same amount
    from [velocY].  [velocX] ends at 5/108 there, where the correction by
    the first-axis difference alone gives 1/432; [velocY] ends at 5/108,
    where the correction by the second-axis difference alone gives
    19/432. *)
Theorem project_velocity_sample :
  ∃ vx' vy' p' div',
    project 4 velocity4 (zeros 4) (zeros 4) (zeros 4) 4
    = Some (vx', vy', p', div')
    ∧ cell vx' 1 1 = Q2Qc (5 # 108)
    ∧ (cell velocity4 1 1
       - Q2Qc (1 # 2) * (cell p' 2 1 - cell p' 0 1
                         + cell p' 1 2 - cell p' 1 0) * Qc_of_Z 4)%Qc
      = Q2Qc (5 # 108)
    ∧ (cell velocity4 1 1
       - Q2Qc (1 # 2) * Qc_of_Z 4 * (cell p' 2 1 - cell p' 0 1))%Qc
      = Q2Qc (1 # 432)
    ∧ cell vy' 1 1 = Q2Qc (5 # 108)
    ∧ (cell (zeros 4) 1 1
       - Q2Qc (1 # 2) * Qc_of_Z 4 * (cell p' 1 2 - cell p' 1 0))%Qc
      = Q2Qc (19 # 432).
Proof.
  do 4 eexists. split; [by vm_compute|].
  repeat split; apply Qc_is_canon; by vm_compute.
Qed.

(** ** The kernel on references and the kernel on array values *)

Lemma NoDup4 (r1 r2 r3 r4 : nat) :
  NoDup [r1; r2; r3; r4] →
  r1 ≠ r2 ∧ r1 ≠ r3 ∧ r1 ≠ r4 ∧ r2 ≠ r3 ∧ r2 ≠ r4 ∧ r3 ≠ r4.
Proof.
  intros H.
  apply NoDup_cons in H as [N1 H]. apply NoDup_cons in H as [N2 H].
  apply NoDup_cons in H as [N3 _].
  repeat split; intros ->.
  - apply N1. by left.
  - apply N1. right. by left.
  - apply N1. right. right. by left.
  - apply N2. by left.
  - apply N2. right. by left.
  - apply N3. by left.
Qed.

Section StoreFacts.
Context {F : Type} `{!Arith F}.
Implicit Types (h : list (array2 F)) (x r : Store.ref) (a : array2 F).

Lemma run_bind {A B} (m : Store.M A) (k : A → Store.M B) h :
  (m ≫= k) h = match m h with Some (v, h') => k v h' | None => None end.
Proof. done. Qed.

Lemma deref_ins x a h :
  (x < length h)%nat →
  Store.deref x (<[x := a]> h) = Some (a, <[x := a]> h).
Proof.
  intros Hx. unfold Store.deref. by rewrite list_lookup_insert_eq.
Qed.

Lemma deref_other x r a a0 h :
  r ≠ x → h !! r = Some a0 →
  Store.deref r (<[x := a]> h) = Some (a0, <[x := a]> h).
Proof.
  intros Hx Hr. unfold Store.deref.
  rewrite list_lookup_insert_ne by congruence. by rewrite Hr.
Qed.

Lemma assign_ins x a a' h :
  (x < length h)%nat →
  Store.assign x a' (<[x := a]> h) = Some ((), <[x := a']> h).
Proof.
  intros Hx. unfold Store.assign.
  rewrite length_insert, decide_True by done.
  by rewrite list_insert_insert_eq.
Qed.

Lemma load_ins x a i j h :
  (x < length h)%nat →
  Store.load x i j (<[x := a]> h)
  = (v ← getitem a i j; Some (v, <[x := a]> h)).
Proof.
  intros Hx. unfold Store.load. by rewrite run_bind, deref_ins.
Qed.

Lemma load_other x r a a0 i j h :
  r ≠ x → h !! r = Some a0 →
  Store.load r i j (<[x := a]> h)
  = (v ← getitem a0 i j; Some (v, <[x := a]> h)).
Proof.
  intros Hx Hr. unfold Store.load.
  by rewrite run_bind, (deref_other x r a a0).
Qed.

Lemma store_cell_ins x a i j v h :
  (x < length h)%nat →
  Store.store_cell x i j v (<[x := a]> h)
  = (a' ← setitem a i j v; Some ((), <[x := a']> h)).
Proof.
  intros Hx. unfold Store.store_cell.
  rewrite run_bind, deref_ins by done. rewrite run_bind. unfold Store.lift.
  destruct (setitem a i j v) as [a'|]; simpl; [|done].
  by apply assign_ins.
Qed.

(** Loops: a loop on the store that keeps the store in the shape [repr s]
    runs as the loop on array values runs on [s]. *)
Lemma for_fold_sim {S I V} (repr : S → list (array2 F))
    (bs : I → V → Store.M V) (bp : I → S → option S) (l : list I) v s :
  (∀ i s, bs i v (repr s) = (s' ← bp i s; Some (v, repr s'))) →
  Store.for_fold l bs v (repr s)
  = (s' ← for_each l bp s; Some (v, repr s')).
Proof.
  intros E. revert s. induction l as [|i l IH]; intros s; [done|].
  simpl. rewrite run_bind, E.
  destruct (bp i s) as [s'|]; simpl; [apply IH|done].
Qed.

(** [set_bnd] writes through its reference and returns it. *)
Lemma set_bnd_ins b x a h :
  (x < length h)%nat →
  Store.set_bnd b x (<[x := a]> h)
  = (a' ← set_bnd b a; Some (x, <[x := a']> h)).
Proof.
  intros Hx. unfold Store.set_bnd, set_bnd.
  repeat (rewrite run_bind, load_ins by done;
          destruct (getitem _ _ _) as [?|]; simpl; [|done];
          rewrite run_bind, load_ins by done;
          destruct (getitem _ _ _) as [?|]; simpl; [|done];
          rewrite run_bind, store_cell_ins by done;
          destruct (setitem _ _ _ _) as [?|]; simpl; [|done]).
  done.
Qed.

(** Two references at once. *)
Lemma load_ins2 x y a c i j h :
  x ≠ y → (y < length h)%nat →
  Store.load y i j (<[x := a]> (<[y := c]> h))
  = (v ← getitem c i j; Some (v, <[x := a]> (<[y := c]> h))).
Proof.
  intros Hxy Hy. apply load_other; [congruence|].
  by apply list_lookup_insert_eq.
Qed.

Lemma load_other2 x y r a c a0 i j h :
  r ≠ x → r ≠ y → h !! r = Some a0 →
  Store.load r i j (<[x := a]> (<[y := c]> h))
  = (v ← getitem a0 i j; Some (v, <[x := a]> (<[y := c]> h))).
Proof.
  intros Hx Hy Hr. apply load_other; [done|].
  by rewrite list_lookup_insert_ne by congruence.
Qed.

Lemma store_cell_ins2 x y a c i j v h :
  x ≠ y → (y < length h)%nat →
  Store.store_cell y i j v (<[x := a]> (<[y := c]> h))
  = (c' ← setitem c i j v; Some ((), <[x := a]> (<[y := c']> h))).
Proof.
  intros Hxy Hy. rewrite (list_insert_insert_ne h x y) by done.
  rewrite store_cell_ins by by rewrite length_insert.
  destruct (setitem c i j v) as [c'|]; simpl; [|done].
  by rewrite (list_insert_insert_ne h x y).
Qed.

Lemma set_bnd_ins2 b x y a c h :
  x ≠ y → (y < length h)%nat →
  Store.set_bnd b y (<[x := a]> (<[y := c]> h))
  = (c' ← set_bnd b c; Some (y, <[x := a]> (<[y := c']> h))).
Proof.
  intros Hxy Hy. rewrite (list_insert_insert_ne h x y) by done.
  rewrite set_bnd_ins by by rewrite length_insert.
  destruct (set_bnd b c) as [c'|]; simpl; [|done].
  by rewrite (list_insert_insert_ne h x y).
Qed.

(** [lin_solve] and [diffuse] work in the array [x] points to and return
    [x], provided the right-hand side is another array. *)
Lemma lin_solve_ins iter b x x0 a a0 c1 c2 h :
  (x < length h)%nat → x0 ≠ x → h !! x0 = Some a0 →
  Store.lin_solve iter b x x0 c1 c2 (<[x := a]> h)
  = (a' ← lin_solve iter b a a0 c1 c2; Some (x, <[x := a']> h)).
Proof.
  intros Hx Hne H0. unfold Store.lin_solve, lin_solve.
  rewrite run_bind. unfold Store.lift at 1.
  destruct (reciprocal c2) as [cR|]; simpl; [|done].
  apply (for_fold_sim (λ a, <[x := a]> h)). intros k s.
  unfold lin_solve_sweep.
  rewrite run_bind, deref_ins by done.
  rewrite run_bind, (deref_other x x0 s a0) by done.
  rewrite run_bind. unfold Store.lift at 1.
  destruct (relax_rhs s a0 _ _) as [r|]; simpl; [|done].
  rewrite run_bind. unfold Store.lift at 1.
  destruct (assign_slice2 s _ _ _ _ r) as [s'|]; simpl; [|done].
  rewrite run_bind, assign_ins by done.
  by apply set_bnd_ins.
Qed.

Lemma diffuse_ins iter b x x0 a a0 diff dt NN h :
  (x < length h)%nat → x0 ≠ x → h !! x0 = Some a0 →
  Store.diffuse iter b x x0 diff dt NN (<[x := a]> h)
  = (a' ← diffuse iter b a a0 diff dt NN; Some (x, <[x := a']> h)).
Proof.
  intros Hx Hne H0. unfold Store.diffuse, diffuse.
  rewrite run_bind, (lin_solve_ins iter b x x0 a a0) by done.
  by destruct (lin_solve _ _ _ _ _ _).
Qed.

(** [advect] allocates: it returns a reference that did not exist, and
    leaves every existing array as it was. *)
Lemma advect_run N b d d0 Vx Vy a a0 ax ay dt NN h :
  h !! d0 = Some a0 → h !! Vx = Some ax → h !! Vy = Some ay →
  Store.advect N b d d0 Vx Vy dt NN h
  = (a' ← advect N b a a0 ax ay dt NN; Some (length h, h ++ [a'])).
Proof.
  intros H0 Hx Hy. unfold Store.advect, advect.
  rewrite !run_bind. unfold Store.deref. rewrite H0. simpl.
  rewrite !run_bind. rewrite Hx. simpl. rewrite !run_bind, Hy. simpl.
  rewrite run_bind. unfold Store.lift.
  destruct (interpolation N a0 ax ay dt NN) as [r|]; simpl; [|done].
  rewrite run_bind. unfold Store.alloc. rewrite run_bind.
  assert (E : ∀ c, <[length h := c]> (h ++ [r]) = h ++ [c]).
  { intros c. rewrite insert_app_r_alt by lia.
    by rewrite Nat.sub_diag. }
  rewrite <- (E r), set_bnd_ins by (rewrite length_app; simpl; lia).
  destruct (set_bnd b r) as [a'|]; simpl; [|done].
  by rewrite E.
Qed.

(** The loop bodies of [project]. *)
Lemma project_div_cell_ins rx ry rp rd ax ay ap ad NN j i h :
  (rp < length h)%nat → (rd < length h)%nat → rp ≠ rd →
  rx ≠ rp → rx ≠ rd → ry ≠ rp → ry ≠ rd →
  h !! rx = Some ax → h !! ry = Some ay →
  Store.project_div_cell rx ry rp rd NN j i (<[rp := ap]> (<[rd := ad]> h))
  = (s ← project_div_cell ax ay NN j i (ap, ad);
     Some ((), <[rp := s.1]> (<[rd := s.2]> h))).
Proof.
  intros Hp Hd Hpd Hxp Hxd Hyp Hyd Hx Hy.
  unfold Store.project_div_cell, project_div_cell.
  do 2 (rewrite run_bind, (load_other2 rp rd rx ap ad ax) by done;
        destruct (getitem ax _ _) as [?|]; simpl; [|done]).
  do 2 (rewrite run_bind, (load_other2 rp rd ry ap ad ay) by done;
        destruct (getitem ay _ _) as [?|]; simpl; [|done]).
  rewrite run_bind, store_cell_ins2 by done.
  destruct (setitem ad _ _ _) as [ad'|]; simpl; [|done].
  rewrite store_cell_ins by by rewrite length_insert.
  by destruct (setitem ap _ _ _).
Qed.

Lemma project_vel_cell_ins rx ry rp ax ay ap NN j i h :
  (rx < length h)%nat → (ry < length h)%nat → rx ≠ ry →
  rp ≠ rx → rp ≠ ry → h !! rp = Some ap →
  Store.project_vel_cell rx ry rp NN j i (<[rx := ax]> (<[ry := ay]> h))
  = (s ← project_vel_cell ap NN j i (ax, ay);
     Some ((), <[rx := s.1]> (<[ry := s.2]> h))).
Proof.
  intros Hx Hy Hxy Hpx Hpy Hp.
  unfold Store.project_vel_cell, project_vel_cell.
  destruct (getitem ap (i + 1) j) as [pe|] eqn:E1; simpl;
    rewrite run_bind, (load_other2 rx ry rp ax ay ap) by done;
    rewrite E1; simpl; [|done].
  destruct (getitem ap (i - 1) j) as [pw|] eqn:E2; simpl;
    rewrite run_bind, (load_other2 rx ry rp ax ay ap) by done;
    rewrite E2; simpl; [|done].
  destruct (getitem ap i (j + 1)) as [pn|] eqn:E3; simpl;
    rewrite run_bind, (load_other2 rx ry rp ax ay ap) by done;
    rewrite E3; simpl; [|done].
  destruct (getitem ap i (j - 1)) as [ps|] eqn:E4; simpl;
    rewrite run_bind, (load_other2 rx ry rp ax ay ap) by done;
    rewrite E4; simpl; [|done].
  rewrite run_bind, load_ins by by rewrite length_insert.
  destruct (getitem ax _ _) as [?|]; simpl; [|done].
  rewrite run_bind, store_cell_ins by by rewrite length_insert.
  destruct (setitem ax _ _ _) as [ax'|]; simpl; [|done].
  rewrite run_bind, (load_other2 rx ry rp ax' ay ap), E1 by done. simpl.
  rewrite run_bind, (load_other2 rx ry rp ax' ay ap), E2 by done. simpl.
  rewrite run_bind, (load_other2 rx ry rp ax' ay ap), E3 by done. simpl.
  rewrite run_bind, (load_other2 rx ry rp ax' ay ap), E4 by done. simpl.
  rewrite run_bind, load_ins2 by done.
  destruct (getitem ay _ _) as [?|]; simpl; [|done].
  rewrite store_cell_ins2 by done.
  by destruct (setitem ay _ _ _).
Qed.

(** [project] works in the four arrays it is given, when they are four
    different arrays, and returns the four references. *)
Lemma project_run iter rx ry rp rd ax ay ap ad NN h :
  NoDup [rx; ry; rp; rd] →
  h !! rx = Some ax → h !! ry = Some ay →
  h !! rp = Some ap → h !! rd = Some ad →
  Store.project iter rx ry rp rd NN h
  = (s ← project iter ax ay ap ad NN;
     Some ((rx, ry, rp, rd),
           <[ry := s.1.1.2]> (<[rx := s.1.1.1]>
             (<[rp := s.1.2]> (<[rd := s.2]> h))))).
Proof.
  intros Hnd Hx Hy Hp Hd.
  assert (rx ≠ ry ∧ rx ≠ rp ∧ rx ≠ rd ∧ ry ≠ rp ∧ ry ≠ rd ∧ rp ≠ rd)
    as (Hxy & Hxp & Hxd & Hyp & Hyd & Hpd).
  { by apply NoDup4. }
  pose proof (lookup_lt_Some _ _ _ Hx). pose proof (lookup_lt_Some _ _ _ Hy).
  pose proof (lookup_lt_Some _ _ _ Hp). pose proof (lookup_lt_Some _ _ _ Hd).
  unfold Store.project, project.
  (* first loop nest *)
  rewrite run_bind.
  rewrite <- (list_insert_id h rd ad Hd) at 1.
  rewrite <- (list_insert_id (<[rd := ad]> h) rp ap) at 1
    by by rewrite list_lookup_insert_ne.
  rewrite (for_fold_sim
             (λ s : array2 F * array2 F, <[rp := s.1]> (<[rd := s.2]> h))
             _ (λ j, for_each (range 1 (NN - 1))
                       (λ i, project_div_cell ax ay NN j i)) _ () (ap, ad));
    last first.
  { intros j [sp sd]. simpl.
    refine (for_fold_sim
              (λ s : array2 F * array2 F, <[rp := s.1]> (<[rd := s.2]> h))
              _ _ _ () (sp, sd) _).
    intros i [sp' sd']. simpl.
    by apply project_div_cell_ins. }
  destruct (for_each _ _ (ap, ad)) as [[ap1 ad1]|]; simpl; [|done].
  (* the corners of div and p, and the pressure *)
  rewrite run_bind, set_bnd_ins2 by done.
  destruct (set_bnd 0 ad1) as [ad2|]; simpl; [|done].
  rewrite run_bind, set_bnd_ins by by rewrite length_insert.
  destruct (set_bnd 0 ap1) as [ap2|]; simpl; [|done].
  rewrite run_bind, (lin_solve_ins iter 0 rp rd ap2 ad2);
    [|by rewrite length_insert|congruence|by apply list_lookup_insert_eq].
  destruct (lin_solve iter 0 ap2 ad2 _ _) as [ap3|]; simpl; [|done].
  (* second loop nest *)
  set (h2 := <[rp := ap3]> (<[rd := ad2]> h)).
  assert (Hh2 : length h2 = length h)
    by (unfold h2; by rewrite !length_insert).
  assert (Hp2 : h2 !! rp = Some ap3).
  { unfold h2. apply list_lookup_insert_eq. by rewrite length_insert. }
  assert (Hx2 : h2 !! rx = Some ax).
  { unfold h2. by rewrite !list_lookup_insert_ne by congruence. }
  assert (Hy2 : h2 !! ry = Some ay).
  { unfold h2. by rewrite !list_lookup_insert_ne by congruence. }
  rewrite run_bind.
  rewrite <- (list_insert_id h2 ry ay Hy2) at 1.
  rewrite <- (list_insert_id (<[ry := ay]> h2) rx ax) at 1
    by by rewrite list_lookup_insert_ne.
  rewrite (for_fold_sim
             (λ s : array2 F * array2 F, <[rx := s.1]> (<[ry := s.2]> h2))
             _ (λ j, for_each (range 1 (NN - 1))
                       (λ i, project_vel_cell ap3 NN j i)) _ () (ax, ay));
    last first.
  { intros j [sx sy]. simpl.
    refine (for_fold_sim
              (λ s : array2 F * array2 F, <[rx := s.1]> (<[ry := s.2]> h2))
              _ _ _ () (sx, sy) _).
    intros i [sx' sy']. simpl.
    apply project_vel_cell_ins; congruence || lia. }
  destruct (for_each _ _ (ax, ay)) as [[ax1 ay1]|]; simpl; [|done].
  rewrite run_bind, set_bnd_ins by (rewrite length_insert; lia).
  destruct (set_bnd 1 ax1) as [ax2|]; simpl; [|done].
  rewrite run_bind, set_bnd_ins2 by (done || lia).
  destruct (set_bnd 2 ay1) as [ay2|]; simpl; [|done].
  by rewrite (list_insert_insert_ne h2 rx ry).
Qed.

(** ** What the routines write and what they return

    These statements need no hypothesis on the store: they hold for any
    references, whether or not two of them are the same array. *)

Lemma bind_inv {A B} (m : @Store.M F A) (k : A → @Store.M F B) h v h' :
  (m ≫= k) h = Some (v, h') →
  ∃ w h1, m h = Some (w, h1) ∧ k w h1 = Some (v, h').
Proof. rewrite run_bind. destruct (m h) as [[w h1]|]; [|done]. eauto. Qed.

Lemma frame_refl (R : list Store.ref) h : Store.frame R h h.
Proof. by split. Qed.

Lemma frame_trans (R : list Store.ref) h1 h2 h3 :
  Store.frame R h1 h2 → Store.frame R h2 h3 → Store.frame R h1 h3.
Proof.
  intros [L1 E1] [L2 E2]. split; [congruence|].
  intros r Hr. by rewrite E2, E1.
Qed.

Lemma writes_ret {A} (R : list Store.ref) (v : A) :
  Store.writes (F:=F) R (mret v : @Store.M F A).
Proof. intros h v' h' [= <- <-]. apply frame_refl. Qed.

Lemma writes_bind {A B} (R : list Store.ref) (m : @Store.M F A)
    (k : A → @Store.M F B) :
  Store.writes (F:=F) R m → (∀ v, Store.writes (F:=F) R (k v)) → Store.writes (F:=F) R (m ≫= k).
Proof.
  intros Hm Hk h v h' E. apply bind_inv in E as (v1 & h1 & E1 & E2).
  eapply frame_trans; [by eapply Hm|by eapply Hk].
Qed.

Lemma writes_lift {A} (R : list Store.ref) (o : option A) :
  Store.writes (F:=F) R (Store.lift o).
Proof.
  intros h v h' E. unfold Store.lift in E.
  destruct o; simplify_eq/=. apply frame_refl.
Qed.

Lemma writes_deref (R : list Store.ref) r : Store.writes (F:=F) R (Store.deref r).
Proof.
  intros h v h' E. unfold Store.deref in E.
  destruct (h !! r); simplify_eq/=. apply frame_refl.
Qed.

Lemma writes_assign (R : list Store.ref) r a :
  r ∈ R → Store.writes (F:=F) R (Store.assign r a).
Proof.
  intros Hr h v h' E. unfold Store.assign in E.
  destruct (decide _); simplify_eq/=. split; [by rewrite length_insert|].
  intros r' Hr'. apply list_lookup_insert_ne. by intros ->.
Qed.

Lemma writes_load (R : list Store.ref) x i j :
  Store.writes (F:=F) R (Store.load x i j).
Proof.
  apply writes_bind; [apply writes_deref|]. intros. apply writes_lift.
Qed.

Lemma writes_store_cell (R : list Store.ref) x i j v :
  x ∈ R → Store.writes (F:=F) R (Store.store_cell x i j v).
Proof.
  intros Hx. apply writes_bind; [apply writes_deref|]. intros.
  apply writes_bind; [apply writes_lift|]. intros. by apply writes_assign.
Qed.

Lemma returns_ret {A} (v : A) : Store.returns (F:=F) v (mret v : @Store.M F A).
Proof. by intros h v' h' [= <- <-]. Qed.

Lemma returns_bind {A B} (m : @Store.M F A) (k : A → @Store.M F B) v0 :
  (∀ v, Store.returns (F:=F) v0 (k v)) → Store.returns (F:=F) v0 (m ≫= k).
Proof.
  intros Hk h v h' E. apply bind_inv in E as (v1 & h1 & E1 & E2).
  by eapply Hk.
Qed.

(** A loop whose iterations keep an invariant of the value they thread. *)
Lemma for_fold_inv {A I} (Inv : A → Prop) (R : list Store.ref) (l : list I)
    (body : I → A → @Store.M F A) v0 :
  Inv v0 →
  (∀ i v, Inv v → Store.writes (F:=F) R (body i v)
                  ∧ ∀ h v' h', body i v h = Some (v', h') → Inv v') →
  Store.writes (F:=F) R (Store.for_fold l body v0)
  ∧ ∀ h v' h', Store.for_fold l body v0 h = Some (v', h') → Inv v'.
Proof.
  intros H0 Hb. revert v0 H0. induction l as [|i l IH]; intros v0 H0; simpl.
  - split; [apply writes_ret|]. by intros h v' h' [= <- <-].
  - destruct (Hb i v0 H0) as [Hw Hi]. split.
    + intros h v' h' E. apply bind_inv in E as (v1 & h1 & E1 & E2).
      eapply frame_trans; [by eapply Hw|].
      by eapply (proj1 (IH v1 (Hi _ _ _ E1))).
    + intros h v' h' E. apply bind_inv in E as (v1 & h1 & E1 & E2).
      by eapply (proj2 (IH v1 (Hi _ _ _ E1))).
Qed.

Lemma set_bnd_in_place (R : list Store.ref) b x :
  x ∈ R →
  Store.writes (F:=F) R (Store.set_bnd b x) ∧ Store.returns (F:=F) x (Store.set_bnd b x).
Proof.
  intros Hx. unfold Store.set_bnd. split.
  - repeat (apply writes_bind;
             [first [apply writes_load|by apply writes_store_cell]|intros ?]).
    apply writes_ret.
  - repeat (apply returns_bind; intros ?). apply returns_ret.
Qed.

Lemma lin_solve_in_place (R : list Store.ref) iter b x x0 c1 c2 :
  x ∈ R →
  Store.writes (F:=F) R (Store.lin_solve iter b x x0 c1 c2)
  ∧ Store.returns (F:=F) x (Store.lin_solve iter b x x0 c1 c2).
Proof.
  intros Hx. unfold Store.lin_solve.
  assert (∀ cR, let m := Store.for_fold (range 0 iter) (λ (_ : Z) x',
              ax ← Store.deref x'; ax0 ← Store.deref x0;
              r ← Store.lift (relax_rhs ax ax0 (value c1) cR);
              ax ← Store.lift (assign_slice2 ax (Some 1) (Some (-1))
                                 (Some 1) (Some (-1)) r);
              _ ← Store.assign x' ax; Store.set_bnd b x') x in
            Store.writes (F:=F) R m ∧ Store.returns (F:=F) x m) as Hloop.
  { intros cR. apply (for_fold_inv (λ x', x' = x)); [done|].
    intros i x' ->. destruct (set_bnd_in_place R b x Hx) as [Hw Hr]. split.
    - apply writes_bind; [apply writes_deref|]. intros ?.
      apply writes_bind; [apply writes_deref|]. intros ?.
      apply writes_bind; [apply writes_lift|]. intros ?.
      apply writes_bind; [apply writes_lift|]. intros ?.
      apply writes_bind; [by apply writes_assign|]. intros ?. done.
    - intros h v' h' E. do 5 apply bind_inv in E as (? & ? & _ & E).
      by eapply Hr. }
  split.
  - apply writes_bind; [apply writes_lift|]. intros cR. apply Hloop.
  - apply returns_bind. intros cR. apply Hloop.
Qed.

Lemma diffuse_in_place (R : list Store.ref) iter b x x0 diff dt NN :
  x ∈ R →
  Store.writes (F:=F) R (Store.diffuse iter b x x0 diff dt NN)
  ∧ Store.returns (F:=F) x (Store.diffuse iter b x x0 diff dt NN).
Proof.
  intros Hx. unfold Store.diffuse.
  destruct (lin_solve_in_place R iter b x x0
              (Float (dt * diff * of_Z (NN - 2) * of_Z (NN - 2))%fl)
              (Float (of_Z 1 + of_Z 6 * (dt * diff * of_Z (NN - 2)
                                          * of_Z (NN - 2)))%fl) Hx)
    as [Hw Hr].
  split.
  - apply writes_bind; [done|]. intros ?. apply writes_ret.
  - intros h v h' E. apply bind_inv in E as (v1 & h1 & E1 & [= <- <-]).
    by eapply Hr.
Qed.

Lemma writes_unit_loops (R : list Store.ref) (lo hi : Z)
    (body : Z → Z → @Store.M F unit) :
  (∀ j i, Store.writes (F:=F) R (body j i)) →
  Store.writes (F:=F) R (Store.for_fold (range lo hi) (λ j _,
                    Store.for_fold (range lo hi) (λ i _, body j i) ()) ()).
Proof.
  intros Hb.
  apply (for_fold_inv (λ _ : (), True) R); [done|]. intros j [] _.
  split; [|done].
  apply (for_fold_inv (λ _ : (), True) R); [done|]. intros i [] _.
  split; [apply Hb|done].
Qed.

Lemma project_in_place iter rx ry rp rd NN :
  Store.writes (F:=F) [rx; ry; rp; rd] (Store.project iter rx ry rp rd NN)
  ∧ Store.returns (F:=F) (rx, ry, rp, rd) (Store.project iter rx ry rp rd NN).
Proof.
  set (R := [rx; ry; rp; rd]).
  assert (rx ∈ R ∧ ry ∈ R ∧ rp ∈ R ∧ rd ∈ R) as (Ix & Iy & Ip & Id)
    by (unfold R; repeat split; set_solver).
  assert (∀ h v h', Store.project iter rx ry rp rd NN h = Some (v, h') →
            v = (rx, ry, rp, rd) ∧ Store.frame R h h') as H.
  { intros h v h' E. unfold Store.project in E.
    apply bind_inv in E as (u1 & h1 & E1 & E).
    apply bind_inv in E as (d1 & h2 & E2 & E).
    apply bind_inv in E as (p1 & h3 & E3 & E).
    apply bind_inv in E as (p2 & h4 & E4 & E).
    apply bind_inv in E as (u2 & h5 & E5 & E).
    apply bind_inv in E as (x1 & h6 & E6 & E).
    apply bind_inv in E as (y1 & h7 & E7 & E).
    injection E as <- <-.
    assert (Store.frame R h h1) as F1.
    { revert E1. apply writes_unit_loops. intros j i.
      unfold Store.project_div_cell.
      repeat (apply writes_bind; [apply writes_load|intros ?]).
      apply writes_bind; [by apply writes_store_cell|intros ?].
      by apply writes_store_cell. }
    pose proof (proj2 (set_bnd_in_place R 0 rd Id) _ _ _ E2) as ->.
    pose proof (proj1 (set_bnd_in_place R 0 rd Id) _ _ _ E2) as F2.
    pose proof (proj2 (set_bnd_in_place R 0 rp Ip) _ _ _ E3) as ->.
    pose proof (proj1 (set_bnd_in_place R 0 rp Ip) _ _ _ E3) as F3.
    pose proof (proj2 (lin_solve_in_place R iter 0 rp rd _ _ Ip) _ _ _ E4)
      as ->.
    pose proof (proj1 (lin_solve_in_place R iter 0 rp rd _ _ Ip) _ _ _ E4)
      as F4.
    assert (Store.frame R h4 h5) as F5.
    { revert E5. apply writes_unit_loops. intros j i.
      unfold Store.project_vel_cell.
      repeat (apply writes_bind;
               [first [apply writes_load|by apply writes_store_cell]
               |intros ?]).
      by apply writes_store_cell. }
    pose proof (proj2 (set_bnd_in_place R 1 rx Ix) _ _ _ E6) as ->.
    pose proof (proj1 (set_bnd_in_place R 1 rx Ix) _ _ _ E6) as F6.
    pose proof (proj2 (set_bnd_in_place R 2 ry Iy) _ _ _ E7) as ->.
    pose proof (proj1 (set_bnd_in_place R 2 ry Iy) _ _ _ E7) as F7.
    split; [done|].
    repeat (eapply frame_trans; [eassumption|]). apply frame_refl. }
  split; intros h v h' E; by apply H in E as [? ?].
Qed.

(** [advect] returns a reference that did not exist and leaves every
    existing array as it was, whatever references it is given. *)
Lemma advect_fresh N b d d0 Vx Vy dt NN h v h' :
  Store.advect N b d d0 Vx Vy dt NN h = Some (v, h') →
  v = length h ∧ h !! v = None
  ∧ length h' = S (length h)
  ∧ ∀ r, (r < length h)%nat → h' !! r = h !! r.
Proof.
  intros E. unfold Store.advect in E.
  apply bind_inv in E as (a0 & h1 & E1 & E).
  apply bind_inv in E as (ax & h2 & E2 & E).
  apply bind_inv in E as (ay & h3 & E3 & E).
  apply bind_inv in E as (r & h4 & E4 & E).
  apply bind_inv in E as (d1 & h5 & E5 & E).
  apply bind_inv in E as (d2 & h6 & E6 & E).
  injection E as <- <-.
  pose proof (writes_deref [] _ _ _ _ E1) as [_ F1].
  assert (h1 = h) as -> by (unfold Store.deref in E1;
    destruct (h !! d0); by simplify_eq/=).
  assert (h2 = h) as -> by (unfold Store.deref in E2;
    destruct (h !! Vx); by simplify_eq/=).
  assert (h3 = h) as -> by (unfold Store.deref in E3;
    destruct (h !! Vy); by simplify_eq/=).
  assert (h4 = h) as -> by (unfold Store.lift in E4;
    destruct (interpolation _ _ _ _ _ _); by simplify_eq/=).
  unfold Store.alloc in E5. injection E5 as <- <-.
  assert (length h ∈ [length h]) as Hin by set_solver.
  pose proof (proj2 (set_bnd_in_place _ b (length h) Hin) _ _ _ E6) as ->.
  pose proof (proj1 (set_bnd_in_place _ b (length h) Hin) _ _ _ E6)
    as [L6 F6].
  split; [done|]. split; [by apply lookup_ge_None_2|].
  split; [by rewrite L6, length_app, Nat.add_comm|].
  intros r' Hr. rewrite F6 by (intros Hr'; apply list_elem_of_singleton in Hr'; lia).
  by apply lookup_app_l.
Qed.

(** The shared array: with [x] also as right-hand side every sweep reads
    the field as the previous sweep left it. *)
Lemma lin_solve_shared iter b x a c1 c2 h :
  (x < length h)%nat →
  Store.lin_solve iter b x x c1 c2 (<[x := a]> h)
  = (cR ← reciprocal c2;
     a' ← for_each (range 0 iter)
            (λ _ s, lin_solve_sweep b s (value c1) cR s) a;
     Some (x, <[x := a']> h)).
Proof.
  intros Hx. unfold Store.lin_solve.
  rewrite run_bind. unfold Store.lift at 1.
  destruct (reciprocal c2) as [cR|]; simpl; [|done].
  apply (for_fold_sim (λ a, <[x := a]> h)). intros k s.
  unfold lin_solve_sweep.
  rewrite run_bind, deref_ins by done.
  rewrite run_bind, deref_ins by done.
  rewrite run_bind. unfold Store.lift at 1.
  destruct (relax_rhs s s _ _) as [r|]; simpl; [|done].
  rewrite run_bind. unfold Store.lift at 1.
  destruct (assign_slice2 s _ _ _ _ r) as [s'|]; simpl; [|done].
  rewrite run_bind, assign_ins by done.
  by apply set_bnd_ins.
Qed.

End StoreFacts.

(** ** Which buffer a routine returns *)

(** C2, as stated, fails for [advect]: called with destination reference 0,
    source 1 and velocity components 2 and 3, it returns a reference that
    did not exist before the call; the array behind reference 0 is left as
    it was and differs from the array returned. *)
Lemma advect_alias_counterexample :
  ∃ (r : nat) (h' : list (array2 Qc)),
    Store.advect 3 0 0%nat 1%nat 2%nat 3%nat (Qc_of_Z 1) 3 sample_store
    = Some (r, h')
    ∧ r ≠ 0%nat
    ∧ sample_store !! r = None
    ∧ h' !! 0%nat = sample_store !! 0%nat
    ∧ h' !! r ≠ h' !! 0%nat.
Proof.
  do 2 eexists. split; [by vm_compute|].
  repeat split; by vm_compute.
Qed.

Section Aliasing.
Context {F : Type} `{!Arith F}.
Local Open Scope fl_scope.

(** C2, amended.  [set_bnd], [lin_solve], [diffuse] and [project] work in
    place: whatever references they are given, the same array twice
    included, a call that returns has written to no array but the one
    passed as [x] (for [project]: the four passed), created none, and
    returns the references it was given.  A call that fails ([lin_solve]
    and [diffuse] do when [c] is zero) returns nothing.  [advect] does not
    work in place: whatever references it is given, it returns a reference
    that did not exist before the call and leaves every existing array,
    the one passed as destination included, as it was.  In a store where
    four different references hold fields of dimension [n >= 2] the calls
    succeed (for [lin_solve] and [diffuse]: unless [c] is zero) and the
    arrays written hold what the routines compute on the array values;
    called with [x] also as [x0], [lin_solve] reads in every sweep what the
    previous sweep wrote. *)
Theorem in_place_except_advect (N iter n b : Z) (h : list (array2 F))
    (r1 r2 r3 r4 : nat) (a1 a2 a3 a4 : array2 F) (ca cc : number F)
    (diff dt : F) :
  (2 ≤ n)%Z → NoDup [r1; r2; r3; r4] →
  h !! r1 = Some a1 → h !! r2 = Some a2 →
  h !! r3 = Some a3 → h !! r4 = Some a4 →
  square n a1 → square n a2 → square n a3 → square n a4 →
  (∀ x k v k', Store.set_bnd b x k = Some (v, k') →
     v = x ∧ Store.frame [x] k k')
  ∧ (∀ x x0 k v k', Store.lin_solve iter b x x0 ca cc k = Some (v, k') →
       v = x ∧ Store.frame [x] k k')
  ∧ (∀ x x0 k v k', Store.diffuse iter b x x0 diff dt n k = Some (v, k') →
       v = x ∧ Store.frame [x] k k')
  ∧ (∀ rx ry rp rd k v k',
       Store.project iter rx ry rp rd n k = Some (v, k') →
       v = (rx, ry, rp, rd) ∧ Store.frame [rx; ry; rp; rd] k k')
  ∧ (∀ d d0 Vx Vy k v k',
       Store.advect N b d d0 Vx Vy dt n k = Some (v, k') →
       v = length k ∧ k !! v = None ∧ length k' = S (length k)
       ∧ ∀ r, (r < length k)%nat → k' !! r = k !! r)
  ∧ (∃ a', set_bnd b a1 = Some a'
       ∧ Store.set_bnd b r1 h = Some (r1, <[r1 := a']> h))
  ∧ Store.lin_solve iter b r1 r2 ca cc h
    = (a' ← lin_solve iter b a1 a2 ca cc; Some (r1, <[r1 := a']> h))
  ∧ (is_zero cc = false → ∃ a', lin_solve iter b a1 a2 ca cc = Some a')
  ∧ (is_zero cc = true → Store.lin_solve iter b r1 r2 ca cc h = None)
  ∧ Store.diffuse iter b r1 r2 diff dt n h
    = (a' ← diffuse iter b a1 a2 diff dt n; Some (r1, <[r1 := a']> h))
  ∧ (fis_zero (of_Z 1 + of_Z 6 * (dt * diff * of_Z (n - 2) * of_Z (n - 2)))
     = false → ∃ a', diffuse iter b a1 a2 diff dt n = Some a')
  ∧ (∃ a1' a2' a3' a4',
       project iter a1 a2 a3 a4 n = Some (a1', a2', a3', a4')
       ∧ Store.project iter r1 r2 r3 r4 n h
         = Some ((r1, r2, r3, r4),
                 <[r2 := a2']> (<[r1 := a1']>
                   (<[r3 := a3']> (<[r4 := a4']> h)))))
  ∧ (∃ a', advect N b a1 a2 a3 a4 dt n = Some a'
       ∧ Store.advect N b r1 r2 r3 r4 dt n h = Some (length h, h ++ [a'])
       ∧ length h ≠ r1
       ∧ ∀ r, (r < length h)%nat → (h ++ [a']) !! r = h !! r)
  ∧ Store.lin_solve iter b r1 r1 ca cc h
    = (cR ← reciprocal cc;
       a' ← for_each (range 0 iter)
              (λ _ s, lin_solve_sweep b s (value ca) cR s) a1;
       Some (r1, <[r1 := a']> h)).
Proof.
  intros Hn Hnd H1 H2 H3 H4 S1 S2 S3 S4.
  assert (r2 ≠ r1) as Hne.
  { destruct (NoDup4 _ _ _ _ Hnd) as (Hne & _). congruence. }
  pose proof (lookup_lt_Some _ _ _ H1) as L1.
  assert (E : <[r1 := a1]> h = h) by by apply list_insert_id.
  split.
  { intros x k v k' Ek.
    destruct (set_bnd_in_place [x] b x) as [Hw Hr]; [set_solver|].
    split; [by eapply Hr|by eapply Hw]. }
  split.
  { intros x x0 k v k' Ek.
    destruct (lin_solve_in_place [x] iter b x x0 ca cc) as [Hw Hr];
      [set_solver|].
    split; [by eapply Hr|by eapply Hw]. }
  split.
  { intros x x0 k v k' Ek.
    destruct (diffuse_in_place [x] iter b x x0 diff dt n) as [Hw Hr];
      [set_solver|].
    split; [by eapply Hr|by eapply Hw]. }
  split.
  { intros rx ry rp rd k v k' Ek.
    destruct (project_in_place iter rx ry rp rd n) as [Hw Hr].
    split; [by eapply Hr|by eapply Hw]. }
  split.
  { intros d d0 Vx Vy k v k' Ek. by eapply advect_fresh. }
  split.
  { rewrite (set_bnd_square b n) by done. eexists. split; [done|].
    rewrite <- E at 1. rewrite set_bnd_ins by done.
    by rewrite (set_bnd_square b n). }
  split.
  { rewrite <- E at 1. by apply lin_solve_ins. }
  split.
  { intros Ec. rewrite (lin_solve_square iter b n) by done.
    rewrite reciprocal_Some by done. by eexists. }
  split.
  { intros Ec. rewrite <- E.
    rewrite (lin_solve_ins iter b r1 r2 a1 a2) by done.
    rewrite (lin_solve_square iter b n) by done.
    by rewrite reciprocal_None. }
  split.
  { rewrite <- E at 1. by apply diffuse_ins. }
  split.
  { intros Ec. unfold diffuse.
    rewrite (lin_solve_square iter b n) by done.
    rewrite reciprocal_Some by done. by eexists. }
  split.
  { rewrite (project_run iter r1 r2 r3 r4 a1 a2 a3 a4) by done.
    rewrite (project_square iter n) by done. simpl.
    by do 4 eexists. }
  split.
  { rewrite (advect_run N b r1 r2 r3 r4 a1 a2 a3 a4) by done.
    rewrite (advect_square N b a1 n) by done. simpl.
    eexists. split; [done|]. split; [done|]. split; [lia|].
    intros r Hr. by apply lookup_app_l. }
  rewrite <- E at 1. by apply lin_solve_shared.
Qed.

End Aliasing.

Lemma in_place_except_advect_witness :
  (∃ a', advect 3 0 (zeros 3) sample3 (zeros 3) (zeros 3) (Qc_of_Z 1) 3
         = Some a'
     ∧ Store.advect 3 0 0%nat 1%nat 2%nat 3%nat (Qc_of_Z 1) 3 sample_store
       = Some (4%nat, sample_store ++ [a']))
  ∧ Store.lin_solve 4 0 0%nat 1%nat (Int 1) (Int 6) sample_store
    = (a' ← lin_solve 4 0 (zeros 3) sample3 (Int 1) (Int 6);
       Some (0%nat, <[0%nat := a']> sample_store)).
Proof.
  destruct (in_place_except_advect 3 4 3 0 sample_store 0 1 2 3
              (zeros 3) sample3 (zeros 3) (zeros 3) (Int 1) (Int 6)
              (Qc_of_Z 1) (Qc_of_Z 1))
    as (_ & _ & _ & _ & _ & _ & Hl & _ & _ & _ & _ & _
        & (a' & Ha & Hrun & _) & _);
    [lia|compute_done|done..|
     apply square_tab; lia|apply square_sample3|
     apply square_tab; lia|apply square_tab; lia|].
  split; [exact (ex_intro _ a' (conj Ha Hrun))|exact Hl].
Defined.
(** ** Further properties of the kernel *)

(** *** The flattened index *)

(** X1.  [IX] and division with remainder by the row length are inverse to
    each other: for [0 <= x < NN] the remainder and the quotient of
    [IX(x, y, NN)] by [NN] are [x] and [y], for every [y], and every
    integer [k] is [IX(k mod NN, k div NN, NN)]. *)
Theorem IX_round_trip (x y k NN : Z) :
  0 ≤ x < NN →
  IX x y NN `mod` NN = x ∧ IX x y NN `div` NN = y
  ∧ IX (k `mod` NN) (k `div` NN) NN = k.
Proof.
  intros Hx. unfold IX. repeat split.
  - rewrite Z.mod_add by lia. apply Z.mod_small. lia.
  - rewrite Z.div_add by lia. rewrite Z.div_small by lia. lia.
  - pose proof (Z.div_mod k NN). lia.
Qed.

Lemma IX_round_trip_witness :
  IX 2 3 5 `mod` 5 = 2 ∧ IX 2 3 5 `div` 5 = 3
  ∧ IX (17 `mod` 5) (17 `div` 5) 5 = 17.
Proof. apply (IX_round_trip 2 3 17 5). lia. Defined.

(** X2.  On the cells of an [NN] x [NN] field [IX] stays within
    [0, NN*NN) and sends different cells to different positions. *)
Theorem IX_injective (x y x' y' NN : Z) :
  inside NN x y → inside NN x' y' →
  0 ≤ IX x y NN < NN * NN
  ∧ (IX x y NN = IX x' y' NN → x = x' ∧ y = y').
Proof.
  unfold inside, IX. intros [Hx Hy] [Hx' Hy']. split; [nia|].
  intros E. assert (y = y') by nia. subst. lia.
Qed.

Lemma IX_injective_witness :
  0 ≤ IX 2 3 5 < 5 * 5 ∧ (IX 2 3 5 = IX 2 3 5 → 2 = 2 ∧ 3 = 3).
Proof. apply (IX_injective 2 3 2 3 5); unfold inside; lia. Defined.

(** *** Relations carried through the boundary enforcer and the sweeps *)

Section Frames.
Context {F : Type} `{!Arith F}.
Implicit Types (f g : Z → Z → F) (x : array2 F).
Local Open Scope fl_scope.

(** A relation between cells that the corner average respects holds
    between the borders of two fields after [set_bnd] if it held between
    the cells the corners are computed from. *)
Lemma bnd_fun_rel_border (R : F → F → Prop) n f g :
  (2 ≤ n)%Z →
  (∀ u v u' v', R u u' → R v v' → R (avg u v) (avg u' v')) →
  (∀ i j, inside n i j → ¬ interior n i j → ¬ corner n i j ∨ n = 2%Z →
     R (f i j) (g i j)) →
  ∀ i j, inside n i j → ¬ interior n i j →
    R (bnd_fun n f i j) (bnd_fun n g i j).
Proof.
  intros Hn Havg H.
  destruct (bnd_fun_corners n f Hn) as (f1 & f2 & f3 & f4).
  destruct (bnd_fun_corners n g Hn) as (g1 & g2 & g3 & g4).
  assert (∀ i j, inside n i j → ¬ interior n i j → ¬ corner n i j →
            R (bnd_fun n f i j) (bnd_fun n g i j)) as Hframe.
  { intros i j ???. rewrite !bnd_fun_frame by done. apply H; auto. }
  assert (∀ i j, inside n i j → ¬ interior n i j →
            (n ≠ 2%Z → ¬ corner n i j) → R (f i j) (g i j)) as H'.
  { intros i j ?? Hc. apply H; [done..|].
    destruct (decide (n = 2%Z)); [by right|left; auto]. }
  assert (R (bnd_fun n f 0%Z 0%Z) (bnd_fun n g 0%Z 0%Z)) as E1.
  { rewrite f1, g1. apply Havg; apply H'; unfold inside, interior, corner; lia. }
  assert (R (bnd_fun n f 0%Z (n - 1)%Z) (bnd_fun n g 0%Z (n - 1)%Z)) as E2.
  { rewrite f2, g2. apply Havg.
    - apply H'; unfold inside, interior, corner; lia.
    - destruct (decide (n = 2%Z)) as [->|]; [done|].
      apply Hframe; unfold inside, interior, corner; lia. }
  assert (R (bnd_fun n f (n - 1)%Z 0%Z) (bnd_fun n g (n - 1)%Z 0%Z)) as E3.
  { rewrite f3, g3. apply Havg.
    - destruct (decide (n = 2%Z)) as [->|]; [done|].
      apply Hframe; unfold inside, interior, corner; lia.
    - apply H'; unfold inside, interior, corner; lia. }
  assert (R (bnd_fun n f (n - 1)%Z (n - 1)%Z)
            (bnd_fun n g (n - 1)%Z (n - 1)%Z)) as E4.
  { rewrite f4, g4. apply Havg.
    - destruct (decide (n = 2%Z)) as [->|]; [done|].
      apply Hframe; unfold inside, interior, corner; lia.
    - destruct (decide (n = 2%Z)) as [->|]; [done|].
      apply Hframe; unfold inside, interior, corner; lia. }
  intros i j Hin Hni.
  destruct (decide (corner n i j)) as [[[->| ->] [->| ->]]|]; auto.
Qed.

(** The same for whole fields. *)
Lemma bnd_fun_rel (R : F → F → Prop) n f g :
  (2 ≤ n)%Z →
  (∀ u v u' v', R u u' → R v v' → R (avg u v) (avg u' v')) →
  (∀ i j, inside n i j → ¬ corner n i j ∨ n = 2%Z → R (f i j) (g i j)) →
  ∀ i j, inside n i j → R (bnd_fun n f i j) (bnd_fun n g i j).
Proof.
  intros Hn Havg H i j Hin.
  destruct (decide (interior n i j)) as [Hi|Hi].
  - rewrite !bnd_fun_frame by by apply interior_not_corner.
    apply H; [done|]. left. by apply interior_not_corner.
  - apply bnd_fun_rel_border; auto.
Qed.

(** Equal fields give equal sweeps. *)
Lemma relax_fun_ext_inside n f0 f0' a cR f g :
  (∀ i j, interior n i j → f0 i j = f0' i j) →
  (∀ i j, inside n i j → f i j = g i j) →
  ∀ i j, inside n i j → relax_fun n f0 a cR f i j = relax_fun n f0' a cR g i j.
Proof.
  intros H0 H i j Hin. unfold relax_fun. case_bool_decide as Hi; [|auto].
  rewrite H0 by done.
  rewrite !H by (unfold inside, interior in *; lia). done.
Qed.

Lemma sweep_fun_ext_inside n f0 f0' a cR f g :
  (2 ≤ n)%Z →
  (∀ i j, interior n i j → f0 i j = f0' i j) →
  (∀ i j, inside n i j → f i j = g i j) →
  ∀ i j, inside n i j →
    bnd_fun n (relax_fun n f0 a cR f) i j
    = bnd_fun n (relax_fun n f0' a cR g) i j.
Proof.
  intros Hn H0 H. apply (bnd_fun_rel eq); [done|by intros; subst|].
  intros i j Hin _. by apply relax_fun_ext_inside.
Qed.

Lemma sweeps_fun_ext_inside n f0 f0' a cR k f g :
  (2 ≤ n)%Z →
  (∀ i j, interior n i j → f0 i j = f0' i j) →
  (∀ i j, inside n i j → f i j = g i j) →
  ∀ i j, inside n i j →
    Nat.iter k (λ f, bnd_fun n (relax_fun n f0 a cR f)) f i j
    = Nat.iter k (λ f, bnd_fun n (relax_fun n f0' a cR f)) g i j.
Proof.
  intros Hn H0 H.
  apply (iter_ext (λ f g, ∀ i j, inside n i j → f i j = g i j)); [done|].
  intros. by apply sweep_fun_ext_inside.
Qed.

(** The sweeps never write a border cell that is not a corner. *)
Lemma sweeps_fun_frame n f0 a cR k f i j :
  ¬ interior n i j → ¬ corner n i j →
  Nat.iter k (λ f, bnd_fun n (relax_fun n f0 a cR f)) f i j = f i j.
Proof.
  intros Hi Hc. induction k as [|k IH]; [done|]. simpl.
  rewrite bnd_fun_frame, relax_fun_frame by done. done.
Qed.

End Frames.

(** *** The boundary enforcer, the solver and the projector on any cells *)

Section Structure.
Context {F : Type} `{!Arith F}.
Implicit Types (f g : Z → Z → F) (x : array2 F).
Local Open Scope fl_scope.

Lemma cell_eq_of_getitem n x y i j :
  square n x → square n y → inside n i j →
  getitem x i j = getitem y i j → cell x i j = cell y i j.
Proof.
  intros Hx Hy Hin E.
  rewrite (getitem_cell n x), (getitem_cell n y) in E by done. congruence.
Qed.

(** A loop whose body ignores the index runs as often as the list is
    long. *)
Lemma for_each_length {S I J} (l : list I) (l' : list J) (h : S → option S) s :
  length l = length l' →
  for_each l (λ _, h) s = for_each l' (λ _, h) s.
Proof.
  revert l' s. induction l as [|i l IH]; intros [|i' l'] s E; try done.
  simpl. destruct (h s) as [s'|]; [|done]. simpl. apply IH. by injection E.
Qed.

(** X3.  On a field of dimension [n >= 3], applying [set_bnd] to its own
    result changes nothing: the corners are computed from border cells that
    [set_bnd] does not write. *)
Theorem set_bnd_idempotent (b b' n : Z) (x : array2 F) :
  (3 ≤ n)%Z → square n x →
  ∃ x', set_bnd b x = Some x' ∧ set_bnd b' x' = Some x'.
Proof.
  intros Hn Hx. rewrite (set_bnd_square b n) by (done || lia).
  eexists. split; [done|]. rewrite set_bnd_tab by lia. f_equal.
  apply tab_ext. apply (bnd_fun_rel eq); [lia|by intros; subst|].
  intros i j Hin [Hc|?]; [|lia]. by apply bnd_fun_frame.
Qed.

(** X4.  [lin_solve] never writes a border cell that is not a corner: on
    fields of dimension [n >= 2] and with [c] not zero it succeeds, and
    those cells of the result hold what the initial guess [x] held, for any
    number of sweeps; with [c] zero it fails. *)
Theorem lin_solve_border_untouched (iter b n : Z) (x x0 : array2 F)
    (a c : number F) :
  (2 ≤ n)%Z → square n x → square n x0 →
  (is_zero c = true → lin_solve iter b x x0 a c = None)
  ∧ (is_zero c = false →
     ∃ x', lin_solve iter b x x0 a c = Some x' ∧ square n x'
       ∧ ∀ i j, inside n i j → ¬ interior n i j → ¬ corner n i j →
           getitem x' i j = getitem x i j).
Proof.
  intros Hn Hx Hx0. rewrite (lin_solve_square iter b n) by done. split.
  - intros E. by rewrite reciprocal_None.
  - intros E. rewrite reciprocal_Some by done. simpl.
    eexists. split; [done|]. split; [apply square_tab; lia|].
    intros i j Hin Hi Hc.
    rewrite getitem_tab_inside, (getitem_cell n x) by done.
    by rewrite sweeps_fun_frame.
Qed.

(** X5.  [lin_solve] reads its right-hand side [x0] on interior cells only,
    and does not read [b]: two right-hand sides that agree on the interior
    give the same result. *)
Theorem lin_solve_rhs_interior (iter b b' n : Z) (x x0 x0' : array2 F)
    (a c : number F) :
  (2 ≤ n)%Z → square n x → square n x0 → square n x0' →
  (∀ i j, interior n i j → getitem x0' i j = getitem x0 i j) →
  lin_solve iter b' x x0' a c = lin_solve iter b x x0 a c.
Proof.
  intros Hn Hx Hx0 Hx0' E. rewrite !(lin_solve_square _ _ n) by done.
  destruct (reciprocal c) as [cR|]; [|done]. simpl.
  f_equal. apply tab_ext. apply sweeps_fun_ext_inside; [done| |done].
  intros i j Hij.
  apply (cell_eq_of_getitem n); auto using interior_inside.
Qed.

(** X6.  The sweeps of [lin_solve] compose.  With a sweep count
    [iter <= 0] and [c] not zero the field [x] is returned as it is (for
    any arrays, whatever their shapes); with [c] zero the call fails, also
    when no sweep is asked for.  And [k1 + k2] sweeps are [k1] sweeps
    followed by [k2] sweeps on their result, with the same outcome also
    when the call fails. *)
Theorem lin_solve_sweeps_compose (k1 k2 b : Z) (x x0 : array2 F)
    (a c : number F) :
  (0 ≤ k1)%Z → (0 ≤ k2)%Z →
  (∀ k, (k ≤ 0)%Z →
     lin_solve k b x x0 a c = if is_zero c then None else Some x)
  ∧ lin_solve (k1 + k2) b x x0 a c
    = (x' ← lin_solve k1 b x x0 a c; lin_solve k2 b x' x0 a c).
Proof.
  intros H1 H2. unfold lin_solve, reciprocal. split.
  - intros k Hk. destruct (is_zero c); [done|]. simpl. unfold range.
    replace (k - 0)%Z with k by lia. by destruct k.
  - destruct (is_zero c); [done|]. simpl. unfold range.
    replace (k1 + k2 - 0)%Z with (k1 + k2)%Z by lia.
    rewrite seqZ_app by done. rewrite for_each_app.
    replace (k1 - 0)%Z with k1 by lia.
    destruct (for_each (seqZ 0 k1) _ x) as [x'|]; [|done]. simpl.
    apply for_each_length. rewrite !length_seqZ. lia.
Qed.

(** X7.  A field that satisfies the stencil equation on every interior cell
    and that [set_bnd] leaves as it is, is returned by [lin_solve] as it
    is, for any number of sweeps, when [c] is not zero. *)
Theorem lin_solve_fixed_point (iter b n : Z) (x x0 : array2 F)
    (a c : number F) :
  (2 ≤ n)%Z → square n x → square n x0 → is_zero c = false →
  (∀ i j, interior n i j →
     cell x i j
     = (cell x0 i j + value a * (cell x (i - 1)%Z j + cell x (i + 1)%Z j
                                 + cell x i (j - 1)%Z + cell x i (j + 1)%Z))
       * (of_Z 1 / value c)) →
  set_bnd b x = Some x →
  lin_solve iter b x x0 a c = Some x.
Proof.
  intros Hn Hx Hx0 Hc Hst Hb. rewrite (lin_solve_square iter b n) by done.
  rewrite reciprocal_Some by done. simpl.
  f_equal. rewrite (square_tab_cell n x Hx) at 2. apply tab_ext.
  rewrite (set_bnd_square b n) in Hb by done.
  assert (∀ i j, inside n i j → bnd_fun n (cell x) i j = cell x i j) as Eb.
  { intros i j Hin. injection Hb as Hb. rewrite <- Hb at 2.
    by rewrite cell_tab. }
  induction (Z.to_nat iter) as [|k IH]; [done|]. simpl.
  intros i j Hin. rewrite <- Eb by done.
  apply (bnd_fun_rel eq); [done|by intros; subst| |done].
  clear i j Hin. intros i j Hin _. unfold relax_fun.
  case_bool_decide as Hi; [|by apply IH].
  rewrite !IH by (unfold inside, interior in *; lia). by rewrite <- Hst.
Qed.

(** X8.  [project] changes the velocity components on their border exactly
    as [set_bnd] alone would: every border cell of a returned component,
    corners included, holds what [set_bnd] applied to the component passed
    in holds there; the pressure correction reaches interior cells only. *)
Theorem project_velocity_border (iter n : Z)
    (velocX velocY p div : array2 F) :
  (2 ≤ n)%Z →
  square n velocX → square n velocY → square n p → square n div →
  ∃ vx' vy' p' div' bx by',
    project iter velocX velocY p div n = Some (vx', vy', p', div')
    ∧ set_bnd 1 velocX = Some bx ∧ set_bnd 2 velocY = Some by'
    ∧ ∀ i j, inside n i j → ¬ interior n i j →
        getitem vx' i j = getitem bx i j
        ∧ getitem vy' i j = getitem by' i j.
Proof.
  intros Hn Hx Hy Hp Hd.
  rewrite (project_square iter n) by done.
  rewrite !(set_bnd_square _ n) by done.
  do 6 eexists. split; [done|]. split; [done|]. split; [done|].
  intros i j Hin Hi. rewrite !getitem_tab_inside by done.
  split; f_equal; (apply (bnd_fun_rel_border eq); [done|by intros; subst| |done..]);
    intros i' j' _ Hi' _; unfold grad_fun; by rewrite bool_decide_eq_false_2.
Qed.

(** X9.  On fields of dimension [n >= 3], [project] reads the caller's [p]
    on its non-corner border cells only: the interior is cleared and the
    corners are recomputed before the solver runs, so two [p] that agree
    on those border cells give the same four results. *)
Theorem project_pressure_guess (iter n : Z)
    (velocX velocY p p2 div : array2 F) :
  (3 ≤ n)%Z →
  square n velocX → square n velocY → square n p → square n p2 →
  square n div →
  (∀ i j, inside n i j → ¬ interior n i j → ¬ corner n i j →
     getitem p2 i j = getitem p i j) →
  project iter velocX velocY p2 div n = project iter velocX velocY p div n.
Proof.
  intros Hn Hx Hy Hp Hp2 Hd E.
  rewrite !(project_square iter n) by (done || lia).
  assert (∀ i j, inside n i j →
    pressure_fun iter n
      (bnd_fun n (div_fun n (cell velocX) (cell velocY) (cell div)))
      (cell p2) i j
    = pressure_fun iter n
      (bnd_fun n (div_fun n (cell velocX) (cell velocY) (cell div)))
      (cell p) i j) as EP.
  { unfold pressure_fun. apply sweeps_fun_ext_inside; [lia|done|].
    apply (bnd_fun_rel eq); [lia|by intros; subst|].
    intros i j Hin [Hc|?]; [|lia]. unfold zero_fun.
    case_bool_decide as Hi; [done|].
    apply (cell_eq_of_getitem n); auto. }
  assert (∀ fv i j, inside n i j →
    bnd_fun n (grad_fun n (pressure_fun iter n
      (bnd_fun n (div_fun n (cell velocX) (cell velocY) (cell div)))
      (cell p2)) fv) i j
    = bnd_fun n (grad_fun n (pressure_fun iter n
      (bnd_fun n (div_fun n (cell velocX) (cell velocY) (cell div)))
      (cell p)) fv) i j) as EV.
  { intros fv. apply (bnd_fun_rel eq); [lia|by intros; subst|].
    intros i j Hin _. unfold grad_fun. case_bool_decide as Hi; [|done].
    by rewrite !EP by (unfold inside, interior in *; lia). }
  do 3 f_equal; [f_equal|]; apply tab_ext; auto.
Qed.

(** X10.  The first loop nest of [project]: every interior cell of the
    returned [div] holds [-0.5*(velocX[i+1,j] - velocX[i-1,j] +
    velocY[i,j+1] - velocY[i,j-1])/NN], computed from the velocity passed
    in, and [set_bnd] leaves the returned [div] as it is. *)
Theorem project_divergence (iter n : Z) (velocX velocY p div : array2 F) :
  (3 ≤ n)%Z →
  square n velocX → square n velocY → square n p → square n div →
  ∃ vx' vy' p' div',
    project iter velocX velocY p div n = Some (vx', vy', p', div')
    ∧ (∀ i j, interior n i j →
         getitem div' i j
         = Some (- half * (cell velocX (i + 1)%Z j - cell velocX (i - 1)%Z j
                           + cell velocY i (j + 1)%Z
                           - cell velocY i (j - 1)%Z) / of_Z n))
    ∧ set_bnd 0 div' = Some div'.
Proof.
  intros Hn Hx Hy Hp Hd.
  rewrite (project_square iter n) by (done || lia).
  do 4 eexists. split; [done|]. split.
  - intros i j Hij. rewrite getitem_tab_inside by by apply interior_inside.
    rewrite bnd_fun_frame by by apply interior_not_corner.
    unfold div_fun. by rewrite bool_decide_eq_true_2.
  - rewrite set_bnd_tab by lia. f_equal. apply tab_ext.
    apply (bnd_fun_rel eq); [lia|by intros; subst|].
    intros i j Hin [Hc|?]; [|lia]. by apply bnd_fun_frame.
Qed.

(** X11.  The pressure [project] returns is the result of [lin_solve] with
    [a = 1], [c = 6] and the returned [div] as right-hand side, started
    from the caller's [p] with its interior cleared and [set_bnd]
    applied. *)
Theorem project_pressure_is_lin_solve (iter n : Z)
    (velocX velocY p div : array2 F) :
  (2 ≤ n)%Z →
  square n velocX → square n velocY → square n p → square n div →
  ∃ vx' vy' p' div' p0,
    project iter velocX velocY p div n = Some (vx', vy', p', div')
    ∧ set_bnd 0 (tab n (λ i j, if bool_decide (interior n i j)
                                then of_Z 0 else cell p i j)) = Some p0
    ∧ lin_solve iter 0 p0 div' (Int 1) (Int 6) = Some p'.
Proof.
  intros Hn Hx Hy Hp Hd.
  rewrite (project_square iter n) by done.
  rewrite set_bnd_tab by done.
  do 5 eexists. split; [done|]. split; [done|].
  by rewrite lin_solve_tab, reciprocal_Int.
Qed.

(** X12.  [set_bnd] keeps every property of cells that the corner average
    keeps: if a set [P] of values holds the average [(u + v) / 2] of any
    two of its members and every cell of a field of dimension [n >= 2],
    it holds every cell of the result.  In exact arithmetic every interval
    is such a set ([Qc_avg_between]); in [float64] an interval is not when
    the sum of two of its members overflows ([avg_overflow]). *)
Theorem set_bnd_invariant (b n : Z) (x : array2 F) (P : F → Prop) :
  (2 ≤ n)%Z → square n x →
  (∀ u v, P u → P v → P (avg u v)) →
  (∀ i j, inside n i j → P (cell x i j)) →
  ∃ x', set_bnd b x = Some x' ∧ ∀ i j, inside n i j → P (cell x' i j).
Proof.
  intros Hn Hx Havg H. rewrite (set_bnd_square b n) by done.
  eexists. split; [done|]. intros i j Hin. rewrite cell_tab by done.
  revert i j Hin.
  apply (bnd_fun_rel (λ u _, P u) n (cell x) (cell x)); [done| |auto].
  intros u v _ _. apply Havg.
Qed.

End Structure.

Lemma Qc_avg_between (lo hi u v : Qc) :
  (lo ≤ u ≤ hi)%Qc → (lo ≤ v ≤ hi)%Qc → (lo ≤ avg u v ≤ hi)%Qc.
Proof.
  intros [??] [??]. qc_arith. qc2q.
  change (/ (2 # 1))%Q with (1 # 2)%Q. split; lra.
Qed.

(** *** The solver called with one array in both places *)

Section SharedArray.
Context {F : Type} `{!Arith F}.
Implicit Types (h : list (array2 F)) (x : Store.ref) (a : array2 F).
Local Open Scope fl_scope.

(** X17.  When [lin_solve] is called with the same array as [x] and as
    [x0], every sweep takes its right-hand side from the field as the
    previous sweep left it, not from the field as it was at the call: the
    call takes the reciprocal of [c] (and fails when [c] is zero), then
    runs as [iter] sweeps, each with the current field in both places; the
    array is updated in place and its reference returned. *)
Theorem lin_solve_shared_array (iter b : Z) x a (c1 c2 : number F) h :
  (x < length h)%nat →
  Store.lin_solve iter b x x c1 c2 (<[x := a]> h)
  = (cR ← reciprocal c2;
     a' ← for_each (range 0 iter)
            (λ _ s, lin_solve_sweep b s (value c1) cR s) a;
     Some (x, <[x := a']> h)).
Proof. intros Hx. by apply lin_solve_shared. Qed.

End SharedArray.

(** Two sweeps on the sample field with [a = 1], [c = 1]: the centre cell
    ends at 45 when the array is its own right-hand side, and at 25 when
    the right-hand side is a copy taken before the call. *)
Example lin_solve_shared_array_sample :
  (r ← Store.lin_solve 2 0 1%nat 1%nat (Int 1) (Int 1) sample_store;
   a ← r.2 !! 1%nat; getitem a 1 1) = Some (Q2Qc (45 # 1))
  ∧ (a ← lin_solve 2 0 sample3 sample3 (Int 1) (Int 1);
     getitem a 1 1) = Some (Q2Qc (25 # 1)).
Proof. by vm_compute. Qed.

(** *** The theorems above on the sample fields *)

Lemma sample3_between (i j : Z) :
  inside 3 i j → (Qc_of_Z 0 ≤ cell sample3 i j ≤ Qc_of_Z 9)%Qc.
Proof.
  intros [Hi Hj].
  assert (i = 0 ∨ i = 1 ∨ i = 2) as [->|[->| ->]] by lia;
    assert (j = 0 ∨ j = 1 ∨ j = 2) as [->|[->| ->]] by lia;
    by vm_compute.
Qed.

(** In [float64] the average of two finite values can be infinite. *)
Example avg_overflow :
  avg (float_of_Z (2 ^ 1023)) (float_of_Z (2 ^ 1023)) = PrimFloat.infinity.
Proof. reflexivity. Qed.

(** On a 2 x 2 field, where every neighbour of a corner is a corner,
    [set_bnd] applied twice differs from [set_bnd] applied once. *)
Example set_bnd_2x2_twice :
  (x ← set_bnd 0 [[float_of_Z 1; float_of_Z 2];
                  [float_of_Z 3; float_of_Z 4]];
   set_bnd 0 x)
  ≠ set_bnd 0 [[float_of_Z 1; float_of_Z 2]; [float_of_Z 3; float_of_Z 4]].
Proof. vm_compute. intros [= H]; try discriminate H. Qed.

Lemma set_bnd_idempotent_witness :
  ∃ x', set_bnd 0 fsample3 = Some x' ∧ set_bnd 1 x' = Some x'.
Proof.
  apply (set_bnd_idempotent 0 1 3 fsample3); [lia|apply square_fsample3].
Defined.

Lemma lin_solve_border_untouched_witness :
  ∃ x', lin_solve 4 0 fsample3 fcheck3 (Int 1) (Int 6) = Some x'
    ∧ square 3 x'
    ∧ ∀ i j, inside 3 i j → ¬ interior 3 i j → ¬ corner 3 i j →
        getitem x' i j = getitem fsample3 i j.
Proof.
  apply (lin_solve_border_untouched 4 0 3 fsample3 fcheck3 (Int 1) (Int 6));
    [lia|apply square_fsample3|apply square_fcheck3|reflexivity].
Defined.

Lemma lin_solve_rhs_interior_witness :
  lin_solve 4 1 fsample3 (fconst 3 (float_of_Z 5)) (Int 1) (Int 6)
  = lin_solve 4 0 fsample3 fsample3 (Int 1) (Int 6).
Proof.
  apply (lin_solve_rhs_interior 4 0 1 3 fsample3 fsample3
           (fconst 3 (float_of_Z 5)));
    [lia|apply square_fsample3|apply square_fsample3|apply square_tab; lia|].
  intros i j [Hi Hj]. assert (i = 1) as -> by lia.
  assert (j = 1) as -> by lia. reflexivity.
Defined.

Lemma lin_solve_sweeps_compose_witness :
  (∀ k, k ≤ 0 →
     lin_solve k 0 fsample3 fsample3 (Int 1) (Int 6)
     = if is_zero (F:=PrimFloat.float) (Int 6) then None else Some fsample3)
  ∧ lin_solve (1 + 2) 0 fsample3 fsample3 (Int 1) (Int 6)
    = (x' ← lin_solve 1 0 fsample3 fsample3 (Int 1) (Int 6);
       lin_solve 2 0 x' fsample3 (Int 1) (Int 6)).
Proof.
  apply (lin_solve_sweeps_compose 1 2 0 fsample3 fsample3); lia.
Defined.

Lemma lin_solve_fixed_point_witness :
  lin_solve 4 0 (fconst 3 (float_of_Z 1)) (fconst 3 (float_of_Z (-3)))
            (Int 1) (Int 1)
  = Some (fconst 3 (float_of_Z 1)).
Proof.
  apply (lin_solve_fixed_point 4 0 3);
    [lia|apply square_tab; lia|apply square_tab; lia|reflexivity| |].
  - intros i j Hij. unfold fconst.
    rewrite !cell_tab by (unfold inside, interior in *; lia). reflexivity.
  - unfold fconst. rewrite set_bnd_tab by lia.
    apply (f_equal Some), tab_ext.
    apply (bnd_fun_rel (λ u _, u = float_of_Z 1) 3 _ (λ _ _, float_of_Z 1));
      [lia| |done].
    by intros u v _ _ -> ->.
Defined.

Lemma project_velocity_border_witness :
  ∃ vx' vy' p' div' bx by',
    project 4 fsample3 fsample3 fcheck3 fcheck3 3
    = Some (vx', vy', p', div')
    ∧ set_bnd 1 fsample3 = Some bx ∧ set_bnd 2 fsample3 = Some by'
    ∧ ∀ i j, inside 3 i j → ¬ interior 3 i j →
        getitem vx' i j = getitem bx i j
        ∧ getitem vy' i j = getitem by' i j.
Proof.
  apply (project_velocity_border 4 3 fsample3 fsample3 fcheck3 fcheck3);
    [lia|apply square_fsample3|apply square_fsample3
    |apply square_fcheck3|apply square_fcheck3].
Defined.

Lemma project_pressure_guess_witness :
  project 4 sample3 sample3
          (tab 3 (λ i j, if bool_decide (interior 3 i j ∨ corner 3 i j)
                         then Qc_of_Z 7 else cell pressure_edge3 i j))
          (zeros 3) 3
  = project 4 sample3 sample3 pressure_edge3 (zeros 3) 3.
Proof.
  apply (project_pressure_guess 4 3);
    [lia|apply square_sample3|apply square_sample3|apply square_tab; lia
    |apply square_tab; lia|apply square_tab; lia|].
  intros i j Hin Hi Hc. rewrite getitem_tab_inside by done.
  rewrite bool_decide_eq_false_2 by (intros [?|?]; done).
  unfold pressure_edge3. by rewrite cell_tab, getitem_tab_inside.
Defined.

Lemma project_divergence_witness :
  ∃ vx' vy' p' div',
    project 4 fsample3 fsample3 fcheck3 fcheck3 3
    = Some (vx', vy', p', div')
    ∧ (∀ i j, interior 3 i j →
         getitem div' i j
         = Some (- half * (cell fsample3 (i + 1) j - cell fsample3 (i - 1) j
                           + cell fsample3 i (j + 1)
                           - cell fsample3 i (j - 1)) / of_Z 3)%fl)
    ∧ set_bnd 0 div' = Some div'.
Proof.
  apply (project_divergence 4 3 fsample3 fsample3 fcheck3 fcheck3);
    [lia|apply square_fsample3|apply square_fsample3
    |apply square_fcheck3|apply square_fcheck3].
Defined.

Lemma project_pressure_is_lin_solve_witness :
  ∃ vx' vy' p' div' p0,
    project 4 fsample3 fsample3 fsample3 fcheck3 3
    = Some (vx', vy', p', div')
    ∧ set_bnd 0 (tab 3 (λ i j, if bool_decide (interior 3 i j)
                                then of_Z 0 else cell fsample3 i j))
      = Some p0
    ∧ lin_solve 4 0 p0 div' (Int 1) (Int 6) = Some p'.
Proof.
  apply (project_pressure_is_lin_solve 4 3 fsample3 fsample3 fsample3
           fcheck3);
    [lia|apply square_fsample3|apply square_fsample3
    |apply square_fsample3|apply square_fcheck3].
Defined.

Lemma set_bnd_invariant_witness :
  (∃ x', set_bnd 0 (fconst 3 (float_of_Z 1)) = Some x'
     ∧ ∀ i j, inside 3 i j → cell x' i j = float_of_Z 1)
  ∧ (∃ x', set_bnd 0 sample3 = Some x'
       ∧ ∀ i j, inside 3 i j → (Qc_of_Z 0 ≤ cell x' i j ≤ Qc_of_Z 9)%Qc).
Proof.
  split.
  - apply (set_bnd_invariant 0 3 (fconst 3 (float_of_Z 1))
             (λ v, v = float_of_Z 1)); [lia|apply square_tab; lia| |].
    + by intros u v -> ->.
    + intros i j Hij. unfold fconst. by rewrite cell_tab.
  - apply (set_bnd_invariant 0 3 sample3
             (λ v, (Qc_of_Z 0 ≤ v ≤ Qc_of_Z 9)%Qc));
      [lia|apply square_sample3|apply Qc_avg_between|apply sample3_between].
Defined.

Lemma lin_solve_shared_array_witness :
  Store.lin_solve 2 0 1%nat 1%nat (Int 1) (Int 1)
                  (<[1%nat := sample3]> sample_store)
  = (cR ← reciprocal (Int 1);
     a' ← for_each (range 0 2)
            (λ _ s, lin_solve_sweep 0 s (value (Int 1)) cR s) sample3;
     Some (1%nat, <[1%nat := a']> sample_store)).
Proof.
  apply (lin_solve_shared_array 2 0 1%nat sample3). simpl. lia.
Defined.
